(** * Validator of the pretrain subnet: model refresh, evaluation round, weights

    A shallow embedding of [neurons/validator.py].  The class [Validator]
    keeps three pieces of state across rounds: the tensor [weights], the set
    [uids_to_eval] and the set [pending_uids_to_eval].  A background thread
    ([update_models]) fills the pending set; the main loop ([run]) calls
    [try_run_step], which runs [run_step] under [asyncio.wait_for].

    Conventions of the embedding:
    - Python [int] is [Z]; Python sets of uids are [gset Z].
    - Tensor entries are values of [fval]: a real number, one of the two
      infinities, or NaN.  Arithmetic on the finite values is exact; the
      special values follow IEEE 754.  The rounding of float32 is not
      modelled, so a value of the model is the value of the code up to
      rounding: where the exact value is tiny the code can hold 0.0
      (underflow), and two exact values that differ can be one float.
    - [pt.temperature] is a non-zero constant.  A temperature of 0 (or one so
      small that a win rate over it leaves the float32 range) makes torch
      compute infinities and NaN in the softmax; the model divides in the
      reals and does not follow the code there.
    - Win rates are quotients of two Python ints; they are kept as exact
      rationals ([Q]) and injected into the reals when they enter a tensor.
    - Everything the file imports from [pretrain] and [bittensor] (metadata,
      models, losses, the comparator, the constants [alpha] and
      [temperature]) is a field of the record [env]. *)

From Stdlib Require Import ZArith QArith Qreals Reals Lra Lia.
From stdpp Require Import base option list sorting gmap.

Close Scope Q_scope.
Close Scope R_scope.
Close Scope Z_scope.

(** ** Exceptions *)

(** The two exceptions the arithmetic and indexing of [run_step] can raise. *)
Inductive exn := ZeroDivisionError | IndexError.

Inductive result (A : Type) :=
| Ok (a : A)
| Raise (e : exn).
Arguments Ok {A} a.
Arguments Raise {A} e.

#[global] Instance result_ret : MRet result := fun _ a => Ok a.

#[global] Instance result_bind : MBind result := fun _ _ k m =>
  match m with
  | Ok a => k a
  | Raise e => Raise e
  end.

(** [for x in xs: acc = body(acc, x)], stopping at the first exception. *)
Fixpoint for_each {A B} (body : B -> A -> result B) (xs : list A) (acc : B)
  : result B :=
  match xs with
  | [] => Ok acc
  | x :: xs' => acc' ← body acc x; for_each body xs' acc'
  end.

(** [l[i]] for a Python list and an index [i >= 0]. *)
Definition getitem {A} (l : list A) (i : nat) : result A :=
  match l !! i with
  | Some a => Ok a
  | None => Raise IndexError
  end.

(** ** BlockMonitor: [try_get_block] *)

Module BlockMonitor.

(** What the worker process [get_block] puts on the queue: the block number,
    or [None] when [bt.subtensor(endpoint).block] raised. *)
Inductive fetch :=
| Fetched (block_number : Z)
| FetchError.

(** One run of the worker process: the seconds it needs to end, and what
    the chain query did. *)
Record worker := {
  finishes_after : Z;
  query : fetch;
}.

(** [get_block(endpoint, queue)]: the value left on the queue. *)
Definition get_block (q : fetch) : option Z :=
  match q with
  | Fetched n => Some n
  | FetchError => None
  end.

(** [try_get_block(ttl)]: [process.join(timeout=ttl)], then
    [process.is_alive()] decides between terminating the worker and reading
    the queue. *)
Definition try_get_block (ttl : Z) (w : worker) : option Z :=
  if (ttl <=? finishes_after w)%Z
  then None
  else get_block (query w).

End BlockMonitor.

(** ** ModelSyncScheduler: [update_models] *)

Module Scheduler.
Import BlockMonitor.

(** [pt.graph.sync(subtensor, uid, metagraph)]: it returns a truth value,
    or raises. *)
Inductive sync_result :=
| Pulled
| UpToDate
| SyncRaised.

(** What one pass of the [while] loop meets: the worker behind
    [try_get_block(10)] and, if the pass gets that far, the outcome of the
    sync. *)
Record tick := {
  block_worker : worker;
  sync_outcome : sync_result;
}.

(** The loop's variables: the local [last_uid_update], the shared set
    [pending_uids_to_eval], and two observation logs: the uids passed
    to [pt.graph.sync], in order, and the uids for which the [except] branch
    logged an error. *)
Record sched := {
  last_uid_update : Z;
  pending : gset Z;
  sync_calls : list Z;
  errors_logged : list Z;
}.

Definition init (p : gset Z) : sched :=
  {| last_uid_update := -1; pending := p; sync_calls := []; errors_logged := [] |}.

(** One pass of the body of [while not self.stop_event.is_set()]. *)
Definition iteration (s : sched) (t : tick) : sched :=
  match try_get_block 10 (block_worker t) with
  | None => s
  | Some block =>
      let uid := (block mod 256)%Z in
      if decide (uid = last_uid_update s) then s
      else
        match sync_outcome t with
        | SyncRaised =>
            {| last_uid_update := uid;
               pending := pending s;
               sync_calls := sync_calls s ++ [uid];
               errors_logged := errors_logged s ++ [uid] |}
        | _ =>
            {| last_uid_update := uid;
               pending := {[ uid ]} ∪ pending s;
               sync_calls := sync_calls s ++ [uid];
               errors_logged := errors_logged s |}
        end
  end.

(** The loop over a finite prefix of passes. *)
Definition update_models (ts : list tick) (s : sched) : sched :=
  foldl iteration s ts.

(** No two neighbours of the list are equal. *)
Fixpoint no_repeat (l : list Z) : Prop :=
  match l with
  | x :: (y :: _) as l' => x <> y /\ no_repeat l'
  | _ => True
  end.

(** The block of the pass came in time. *)
Definition fetched (t : tick) : Prop :=
  is_Some (try_get_block 10 (block_worker t)).

(** A pass whose worker returns [block] within the deadline. *)
Definition at_block (block : Z) (r : sync_result) : tick :=
  {| block_worker := {| finishes_after := 1; query := Fetched block |};
     sync_outcome := r |}.

End Scheduler.

(** ** Tensor entries and the tensor operations [run_step] uses *)

Module Tensor.

(** A float as [torch] holds it.  Zero has no sign here. *)
Inductive fval :=
| Fin (x : R)
| PInf
| NInf
| NaN.

(** The product or quotient of an infinity by the finite [x]: [pos] when
    [x] is positive, [neg] when it is negative, NaN for zero. *)
Definition by_sign (x : R) (pos neg : fval) : fval :=
  if Rlt_dec 0 x then pos else if Rlt_dec x 0 then neg else NaN.

Definition fadd (a b : fval) : fval :=
  match a, b with
  | NaN, _ | _, NaN => NaN
  | PInf, NInf | NInf, PInf => NaN
  | PInf, _ | _, PInf => PInf
  | NInf, _ | _, NInf => NInf
  | Fin x, Fin y => Fin (x + y)
  end.

Definition fmul (a b : fval) : fval :=
  match a, b with
  | NaN, _ | _, NaN => NaN
  | Fin x, Fin y => Fin (x * y)
  | PInf, Fin x | Fin x, PInf => by_sign x PInf NInf
  | NInf, Fin x | Fin x, NInf => by_sign x NInf PInf
  | PInf, PInf | NInf, NInf => PInf
  | PInf, NInf | NInf, PInf => NInf
  end.

Definition fdiv (a b : fval) : fval :=
  match a, b with
  | NaN, _ | _, NaN => NaN
  | Fin x, Fin y => if Req_EM_T y 0 then by_sign x PInf NInf else Fin (x / y)
  | Fin _, (PInf | NInf) => Fin 0
  | PInf, Fin y => if Rlt_dec y 0 then NInf else PInf
  | NInf, Fin y => if Rlt_dec y 0 then PInf else NInf
  | (PInf | NInf), (PInf | NInf) => NaN
  end.

(** The largest finite float32, [(2 - 2^-23) * 2^127]. *)
Definition float32_max : R := IZR (2 ^ 128 - 2 ^ 104).

(** [t.sum()] *)
Definition tsum (t : list fval) : fval := foldr fadd (Fin 0) t.

(** [torch.zeros_like(t)] *)
Definition zeros_like (t : list fval) : list fval := (fun _ => Fin 0%R) <$> t.

(** [t /= d] with a zero-dimensional [d] *)
Definition div_scalar (t : list fval) (d : fval) : list fval :=
  (fun x => fdiv x d) <$> t.

(** [c * t] with a Python float [c] *)
Definition scale (c : R) (t : list fval) : list fval := fmul (Fin c) <$> t.

(** [a + b] for two tensors of one shape *)
Definition tadd (a b : list fval) : list fval := zip_with fadd a b.

(** [t.nan_to_num(0.0)]: NaN becomes 0, the infinities become the largest
    and the smallest finite float32. *)
Definition nan_to_num (t : list fval) : list fval :=
  (fun x => match x with
            | NaN => Fin 0%R
            | PInf => Fin float32_max
            | NInf => Fin (- float32_max)%R
            | Fin y => Fin y
            end) <$> t.

(** The position an integer index denotes in a dimension of size [n]:
    negative indices count from the end. *)
Definition position (n : nat) (i : Z) : result nat :=
  if decide (0 <= i < Z.of_nat n)%Z then Ok (Z.to_nat i)
  else if decide (- Z.of_nat n <= i < 0)%Z then Ok (Z.to_nat (i + Z.of_nat n))
  else Raise IndexError.

(** [i] is an index of a dimension of size [n], counted from either end. *)
Definition indexes (n : nat) (i : Z) : Prop :=
  (- Z.of_nat n <= i < Z.of_nat n)%Z.

(** [t[i] = v] *)
Definition setitem (t : list fval) (i : Z) (v : fval) : result (list fval) :=
  k ← position (length t) i; Ok (<[k := v]> t).

(** The sum of a list of reals. *)
Definition rsum (xs : list R) : R := foldr Rplus 0%R xs.

(** [torch.softmax(t, dim=0)] on finite entries, in exact arithmetic:
    [exp(x_i) / sum_j exp(x_j)].  The float32 result is this value rounded.
    An exact score is never 0 and differs wherever the entries differ; the
    float32 score is 0.0 where [exp(x_i - max_j x_j)] underflows, and two
    entries close to each other can get one score. *)
Definition softmax (xs : list R) : list R :=
  let es := exp <$> xs in (fun e => (e / rsum es)%R) <$> es.

(** Neither NaN nor an infinity. *)
Definition finite (x : fval) : Prop := exists r, x = Fin r.

End Tensor.

(** ** Ranking *)

Module Ranking.

#[global] Instance Qeq_decision (a b : Q) : Decision (a == b)%Q := Qeq_dec a b.

Section Sorted.
Context {A : Type} (key : A -> Q).

(** [a] may stand before [b] in a descending list. *)
Definition not_below (a b : A) : Prop := (key b <= key a)%Q.

(** Insertion of [x] into a list in descending order of [key]: [x] goes in
    front of the first element whose key is not larger than its own. *)
Fixpoint insert_desc (x : A) (l : list A) : list A :=
  match l with
  | [] => [x]
  | y :: l' =>
      if Qle_bool (key y) (key x) then x :: y :: l'
      else y :: insert_desc x l'
  end.

(** [sorted(l, key=key, reverse=True)]: descending by key, and elements
    with equal keys stay in the order they had in [l] (Python's sort is
    stable, also with [reverse=True]). *)
Definition sorted_reverse (l : list A) : list A := foldr insert_desc [] l.

End Sorted.

(** [l[:n]] for a Python list and any integer [n]. *)
Definition prefix_slice {A} (l : list A) (n : Z) : list A :=
  if decide (0 <= n)%Z then take (Z.to_nat n) l
  else take (length l - Z.to_nat (- n)) l.

End Ranking.

(** ** One evaluation round: [run_step] *)

Module Round.
Import Tensor Ranking.

(** The state a [Validator] carries from round to round. *)
Record validator := {
  weights : list fval;
  uids_to_eval : gset Z;
  pending_uids_to_eval : gset Z;
}.

Section Env.
Context {model batch loss : Type}.

(** What a round reads from outside [validator.py]. *)
Record env := {
  (** [pt.graph.metadata(subtensor, uid)]: [None], or the ["timestamp"] of
      the record it returns *)
  metadata : Z -> option Z;
  (** [pt.graph.load_model(uid, device)] *)
  load_model : Z -> option model;
  (** [pt.validation.compute_losses(model, batches, device)] *)
  compute_losses : model -> list batch -> list loss;
  (** [pt.validation.iswin(loss_i, loss_j, time_i, time_j)] *)
  iswin : loss -> loss -> Z -> Z -> bool;
  (** [math.inf] *)
  inf : loss;
  (** the batches [SubsetFalconLoader] yields for the pages drawn *)
  batches : list batch;
  (** the order in which [list(s)] enumerates a set *)
  set_iter : gset Z -> list Z;
  (** [config.sample_min] *)
  sample_min : Z;
  (** [pt.alpha] *)
  alpha : R;
  (** [pt.temperature], a non-zero constant (see [step_weights]) *)
  temperature : R;
}.

(** [list(s)] lists each member of the set once. *)
Definition iter_ok (e : env) : Prop :=
  forall s : gset Z, set_iter e s ≡ₚ elements s.

(** [compute_losses] returns one loss per batch (the scorer's contract). *)
Definition losses_ok (e : env) : Prop :=
  forall m, length (compute_losses e m (batches e)) = length (batches e).

(** The candidates of a round: uid and timestamp, the parallel lists [uids]
    and [timestamps] of the source zipped.  The uids are those of the set in
    its iteration order, less the ones without metadata. *)
Definition candidates (e : env) (st : validator) : list (Z * Z) :=
  omap (fun uid => t ← metadata e uid; Some (uid, t))
       (set_iter e (uids_to_eval st)).

(** The losses of one uid: [math.inf] per batch when the model is not
    there. *)
Definition losses_of (e : env) (uid : Z) : list loss :=
  match load_model e uid with
  | None => (fun _ => inf e) <$> batches e
  | Some m => compute_losses e m (batches e)
  end.

(** The loop that fills [losses_per_uid].  The uids of a round are distinct,
    so the dict is kept as the list of its values in the order of [uids].
    [sum(losses) / len(losses)] raises on an empty list. *)
Fixpoint compute_all_losses (e : env) (uids : list Z) : result (list (list loss)) :=
  match uids with
  | [] => Ok []
  | uid :: rest =>
      let losses := losses_of e uid in
      if decide (length losses = 0) then Raise ZeroDivisionError
      else ls ← compute_all_losses e rest; Ok (losses :: ls)
  end.

(** A candidate with its losses: ((uid, timestamp), losses). *)
Abbreviation entry := (Z * Z * list loss)%type.

(** The body of [for batch_idx, _ in enumerate(batches)]; the accumulator
    holds [wins[uid_i]] and [total_matches]. *)
Definition duel (e : env) (ei ej : entry) (acc : nat * nat) (batch_idx : nat)
  : result (nat * nat) :=
  loss_i ← getitem ei.2 batch_idx;
  loss_j ← getitem ej.2 batch_idx;
  Ok (acc.1 + (if iswin e loss_i loss_j ei.1.2 ej.1.2 then 1 else 0), S acc.2).

(** The body of [for j, uid_j in enumerate(uids)]. *)
Definition versus (e : env) (i : nat) (ei : entry) (acc : nat * nat)
    (jej : nat * entry) : result (nat * nat) :=
  if decide (i = jej.1) then Ok acc
  else for_each (duel e ei jej.2) (seq 0 (length (batches e))) acc.

(** The number of positions in [a, a + n) other than [i]: the rivals of
    candidate [i]. *)
Definition rivals (i a n : nat) : nat :=
  length (filter (fun j => j <> i) (seq a n)).

(** [enumerate(l)] *)
Definition enumerate {A} (l : list A) : list (nat * A) := zip (seq 0 (length l)) l.

(** What one match adds to [wins[uid_i]]:
    [1 if pt.validation.iswin(loss_i, loss_j, time_i, time_j) else 0] for the
    losses of [ei] and [ej] on the batch [batch_idx]. *)
Definition won (e : env) (ei ej : entry) (batch_idx : nat) : nat :=
  match ei.2 !! batch_idx, ej.2 !! batch_idx with
  | Some loss_i, Some loss_j =>
      if iswin e loss_i loss_j ei.1.2 ej.1.2 then 1 else 0
  | _, _ => 0
  end.

(** The matches the candidate [ei] at position [i] wins: against every other
    position of [es], on every batch. *)
Definition matches_won (e : env) (es : list entry) (i : nat) (ei : entry) : nat :=
  sum_list ((fun jej : nat * entry =>
               if decide (i = jej.1) then 0
               else sum_list (won e ei jej.2 <$> seq 0 (length (batches e))))
            <$> enumerate es).

(** [wins[uid_i] / total_matches if total_matches > 0 else 0] *)
Definition rate (wins total_matches : nat) : Q :=
  if decide (0 < total_matches)
  then Qmake (Z.of_nat wins) (Pos.of_nat total_matches)
  else 0%Q.

(** What the round computes for one uid. *)
Record score := {
  uid_of : Z;
  wins_of : nat;
  total_matches_of : nat;
  win_rate_of : Q;
}.

(** The body of [for i, uid_i in enumerate(uids)]. *)
Definition tally (e : env) (es : list entry) (iei : nat * entry) : result score :=
  wt ← for_each (versus e iei.1 iei.2) (enumerate es) (0, 0);
  Ok {| uid_of := iei.2.1.1; wins_of := wt.1; total_matches_of := wt.2;
        win_rate_of := rate wt.1 wt.2 |}.

Fixpoint tally_all (e : env) (es : list entry) (ies : list (nat * entry))
  : result (list score) :=
  match ies with
  | [] => Ok []
  | ie :: rest => s ← tally e es ie; ss ← tally_all e es rest; Ok (s :: ss)
  end.

(** Losses, wins and win rates of a round, in the order of [uids]. *)
Definition score_round (e : env) (cs : list (Z * Z)) : result (list score) :=
  ls ← compute_all_losses e cs.*1;
  let es : list entry := zip cs ls in
  tally_all e es (enumerate es).

(** [step_weights = torch.softmax(model_weights / pt.temperature, dim=0)]:
    the softmax of the win rates over the temperature, in exact arithmetic
    (see [softmax]).  It stands for the tensor of the code where the
    temperature is not 0; with a temperature of 0 the code divides to
    infinities and NaN, and this definition is not meant for it. *)
Definition step_weights (e : env) (ss : list score) : list R :=
  softmax ((fun s => (Q2R (win_rate_of s) / temperature e)%R) <$> ss).

(** [for i, uid_i in enumerate(uids): new_weights[uid_i] = step_weights[i]] *)
Definition scatter (t : list fval) (uids : list Z) (ws : list R)
  : result (list fval) :=
  for_each (fun t uw => setitem t uw.1 (Fin uw.2)) (zip uids ws) t.

(** [new_weights] after [new_weights /= new_weights.sum()]: the round's
    score vector. *)
Definition round_vector (e : env) (w : list fval) (ss : list score)
  : result (list fval) :=
  nw ← scatter (zeros_like w) (uid_of <$> ss) (step_weights e ss);
  Ok (div_scalar nw (tsum nw)).

(** [pt.alpha * self.weights + (1 - pt.alpha) * new_weights] *)
Definition blend (a : R) (w_old w_round : list fval) : list fval :=
  tadd (scale a w_old) (scale (1 - a) w_round).

(** The two assignments to [self.weights]. *)
Definition update_weights (e : env) (w : list fval) (ss : list score)
  : result (list fval) :=
  nw ← round_vector e w ss;
  Ok (nan_to_num (blend (alpha e) w nw)).

(** [sorted(win_rate, key=win_rate.get, reverse=True)[:sample_min]] *)
Definition top_uids (e : env) (ss : list score) : list Z :=
  uid_of <$> prefix_slice (sorted_reverse win_rate_of ss) (sample_min e).

(** The division [sum(losses_per_uid[uid]) / len(batches)] of [log_step],
    done once per uid. *)
Definition log_step (e : env) (ss : list score) : result unit :=
  match ss with
  | [] => Ok ()
  | _ :: _ =>
      if decide (length (batches e) = 0) then Raise ZeroDivisionError
      else Ok ()
  end.

(** How [run_step] ends: normally, or with an exception; either way the
    state is what the assignments done so far made of it. *)
Inductive ending :=
| Completed (st : validator)
| Aborted (x : exn) (st : validator).

Definition state_of (r : ending) : validator :=
  match r with Completed st | Aborted _ st => st end.

Definition run_step (e : env) (st : validator) : ending :=
  match score_round e (candidates e st) with
  | Raise x => Aborted x st
  | Ok ss =>
      match update_weights e (weights st) ss with
      | Raise x => Aborted x st
      | Ok w =>
          let st' :=
            {| weights := w;
               uids_to_eval :=
                 list_to_set (top_uids e ss) ∪ pending_uids_to_eval st;
               pending_uids_to_eval := ∅ |} in
          match log_step e ss with
          | Raise x => Aborted x st'
          | Ok _ => Completed st'
          end
      end
  end.

End Env.
Arguments env : clear implicits.

End Round.

(** ** The time-boxed round: [try_run_step] *)

Module TimeBox.
Import Tensor Round.

(** A coroutine as the event loop sees it.  [Block d f] is a stretch of
    code without [await]: it runs for [d] seconds without handing control
    back and has the effect [f] on the state.  [Await d] is an [await] on
    something that takes [d] seconds: the coroutine is suspended, the event
    loop runs, and only here can a cancellation reach the coroutine. *)
Inductive phase :=
| Block (seconds : Z) (effect : validator -> ending)
| Await (seconds : Z).

(** What [await asyncio.wait_for(coro, ttl)] does to its caller. *)
Inductive waited :=
| Returned (st : validator)
| Raised (x : exn) (st : validator)
| TimeoutError (st : validator).

(** The coroutine from time [clock] on, under a deadline at time [ttl].  The
    timeout callback runs when the event loop has control and the deadline
    is due; it cancels the coroutine at the [await] where it is suspended.
    A coroutine that ends hands its result over, whatever the clock says. *)
Fixpoint drive (ttl clock : Z) (ps : list phase) (st : validator)
  : waited :=
  match ps with
  | [] => Returned st
  | Block d f :: rest =>
      match f st with
      | Completed st' => drive ttl (clock + d) rest st'
      | Aborted x st' => Raised x st'
      end
  | Await d :: rest =>
      if decide (ttl <= clock + d)%Z then TimeoutError st
      else drive ttl (clock + d) rest st
  end.

(** [asyncio.wait_for]: with [ttl <= 0] the coroutine is cancelled before
    it starts. *)
Definition wait_for (ttl : Z) (ps : list phase) (st : validator)
  : waited :=
  if decide (ttl <= 0)%Z then TimeoutError st else drive ttl 0 ps st.

Section Env.
Context {model batch loss : Type}.

(** [_try_run_step()], that is [run_step], as a coroutine: its body has no
    [await], so it is one block.  [seconds] is the time the round takes. *)
Definition run_step_coroutine (e : env model batch loss) (seconds : Z)
  : list phase :=
  [Block seconds (run_step e)].

(** [try_run_step(ttl)].  [Returned] is the branch that logs "Finished
    running step", [TimeoutError] the [except] branch; any other exception
    goes on to [run]. *)
Definition try_run_step (e : env model batch loss) (ttl seconds : Z)
    (st : validator) : waited :=
  wait_for ttl (run_step_coroutine e seconds) st.

End Env.
End TimeBox.

(** ** The pool policy in the words of the specification *)

Module PoolSpec.
Import Round Ranking.

(** The ranking the specification describes: descending win rate, and among
    equal win rates ascending uid. *)
Definition ranks_before (a b : score) : Prop :=
  (win_rate_of b < win_rate_of a)%Q \/
  ((win_rate_of a == win_rate_of b)%Q /\ (uid_of a <= uid_of b)%Z).

#[global] Instance ranks_before_dec a b : Decision (ranks_before a b).
Proof.
  unfold ranks_before.
  destruct (Qlt_le_dec (win_rate_of b) (win_rate_of a)) as [H|H].
  - left. by left.
  - destruct (Qeq_dec (win_rate_of a) (win_rate_of b)) as [E|E].
    + destruct (decide (uid_of a <= uid_of b)%Z) as [L|L].
      * left. right. done.
      * right. intros [H'|[_ H']]; [|done].
        apply Qlt_not_le in H'. done.
    + right. intros [H'|[H' _]]; [|done].
      apply Qlt_not_le in H'. done.
Defined.

(** The non-pending part of the next ActiveSet as the specification has it:
    the first [sample_min] uids of that ranking. *)
Definition spec_top_uids (n : nat) (ss : list score) : list Z :=
  uid_of <$> take n (merge_sort ranks_before ss).

End PoolSpec.

(** ** Sample rounds *)

Module Sample.
Import Tensor Ranking Round.

(** A loss: a rational, or [math.inf]. *)
Inductive sample_loss :=
| Finite (q : Q)
| Infinite.

(** Modelled from the spec: [pt.validation.iswin] is not among the sources.
    The specification asks of the comparator that it is deterministic and
    that the strictly smaller loss wins at equal timestamps.  This one looks
    at the losses only: the strictly lower loss wins, and [math.inf] never
    does. *)
Definition lower_wins (a b : sample_loss) (time_a time_b : Z) : bool :=
  match a, b with
  | Finite x, Finite y => negb (Qle_bool y x)
  | Finite _, Infinite => true
  | Infinite, _ => false
  end.

(** Two ways to enumerate a set of uids. *)
Definition ascending (s : gset Z) : list Z := merge_sort Z.le (elements s).
Definition descending (s : gset Z) : list Z := reverse (ascending s).

(** A model is known by the loss it has on every batch. *)
Definition sample_env (models : Z -> option Q) (nbatches : nat)
    (iter : gset Z -> list Z) (n : Z) (a : R) : env Q nat sample_loss :=
  {| metadata := fun _ => Some 0%Z;
     load_model := models;
     compute_losses := fun m bs => (fun _ => Finite m) <$> bs;
     iswin := lower_wins;
     inf := Infinite;
     batches := seq 0 nbatches;
     set_iter := iter;
     sample_min := n;
     alpha := a;
     temperature := 1 |}.

(** One candidate whose model is not there, one batch, the first round. *)
Definition lone : env Q nat sample_loss :=
  sample_env (fun _ => None) 1 ascending 30 (1 / 2).

Definition fresh : validator :=
  {| weights := [Fin 0]; uids_to_eval := {[ 0%Z ]}; pending_uids_to_eval := ∅ |}.

Definition after_first_round : validator :=
  {| weights := [Fin (1 / 2)]; uids_to_eval := {[ 0%Z ]};
     pending_uids_to_eval := ∅ |}.

(** A round without candidates, with [alpha = 1]. *)
Definition frozen : env Q nat sample_loss :=
  sample_env (fun _ => None) 1 ascending 30 1.

Definition settled : validator :=
  {| weights := [Fin 1]; uids_to_eval := ∅; pending_uids_to_eval := ∅ |}.

Definition zeroed : validator :=
  {| weights := [Fin 0]; uids_to_eval := ∅; pending_uids_to_eval := ∅ |}.

(** Two candidates with equal win rates, enumerated as 8, 1 (the order in
    which CPython lists the set [{1, 8}]), and room for one. *)
Definition tie : env Q nat sample_loss :=
  sample_env (fun _ => None) 1 descending 1 (1 / 2).

Definition two_uids : validator :=
  {| weights := replicate 9 (Fin 0); uids_to_eval := {[ 1%Z; 8%Z ]};
     pending_uids_to_eval := ∅ |}.

(** Three candidates with losses 1, 2 and 1/2 on each of two batches, and
    uid 3 waiting in the pending set. *)
Definition trio_models (uid : Z) : option Q :=
  if decide (uid = 0%Z) then Some 1%Q
  else if decide (uid = 1%Z) then Some 2%Q
  else if decide (uid = 2%Z) then Some (1 # 2)%Q
  else None.

Definition trio : env Q nat sample_loss :=
  sample_env trio_models 2 ascending 2 (1 / 2).

Definition three_uids : validator :=
  {| weights := replicate 4 (Fin 0); uids_to_eval := {[ 0%Z; 1%Z; 2%Z ]};
     pending_uids_to_eval := {[ 3%Z ]} |}.

(** The scores of the sample rounds. *)
Definition lone_scores : list score :=
  [ {| uid_of := 0; wins_of := 0; total_matches_of := 0; win_rate_of := 0 |} ].

Definition tie_scores : list score :=
  [ {| uid_of := 8; wins_of := 0; total_matches_of := 1; win_rate_of := 0 # 1 |};
    {| uid_of := 1; wins_of := 0; total_matches_of := 1; win_rate_of := 0 # 1 |} ].

Definition trio_scores : list score :=
  [ {| uid_of := 0; wins_of := 2; total_matches_of := 4; win_rate_of := 2 # 4 |};
    {| uid_of := 1; wins_of := 0; total_matches_of := 4; win_rate_of := 0 # 4 |};
    {| uid_of := 2; wins_of := 4; total_matches_of := 4; win_rate_of := 4 # 4 |} ].

End Sample.


(** ** The first state and the succession of rounds *)

Module MainLoop.
Import Tensor Ranking Round TimeBox.

(** A weight vector of finite entries between 0 and 1 whose sum is at most
    1. *)
Definition subdistribution (w : list fval) : Prop :=
  exists ws, w = Fin <$> ws /\ Forall (fun x => (0 <= x <= 1)%R) ws /\
    (rsum ws <= 1)%R.

Section Env.
Context {model batch loss : Type}.

(** [__init__], "Build initial uids to eval": the uids of the metagraph that
    have metadata, shuffled, cut to [sample_min + 1] of them when
    [config.test] is set, as a set.  [shuffle] is what [random.shuffle] does
    to the list. *)
Definition initial_uids (e : env model batch loss) (uids : list Z)
    (shuffle : list Z -> list Z) (test : bool) : gset Z :=
  let with_metadata := filter (fun uid => metadata e uid <> None) uids in
  let shuffled := shuffle with_metadata in
  list_to_set
    (if test then prefix_slice shuffled (sample_min e + 1) else shuffled).

(** The state [__init__] leaves: [torch.zeros_like(self.metagraph.S)], the
    initial uids and an empty pending set. *)
Definition init_validator (e : env model batch loss) (stake : list fval)
    (uids : list Z) (shuffle : list Z -> list Z) (test : bool) : validator :=
  {| weights := zeros_like stake;
     uids_to_eval := initial_uids e uids shuffle test;
     pending_uids_to_eval := ∅ |}.

(** One pass of the inner loop of [run]: what the round reads, the time it
    takes, and the uids the update thread has added to the pending set since
    the round before. *)
Record round := {
  round_env : env model batch loss;
  round_seconds : Z;
  synced : gset Z;
}.

(** The state a call of [try_run_step] leaves, however it ends: an
    exception of the round is caught in [run], which goes on. *)
Definition state_after (w : waited) : validator :=
  match w with Returned st | Raised _ st | TimeoutError st => st end.

(** The state a round finds: the synced uids are pending. *)
Definition with_synced (st : validator) (r : round) : validator :=
  {| weights := weights st;
     uids_to_eval := uids_to_eval st;
     pending_uids_to_eval := pending_uids_to_eval st ∪ synced r |}.

(** [await self.try_run_step(ttl = 60 * 20)] *)
Definition one_round (st : validator) (r : round) : validator :=
  state_after
    (try_run_step (round_env r) (60 * 20) (round_seconds r) (with_synced st r)).

(** The rounds of [run], one after the other. *)
Definition run_rounds (rs : list round) (st : validator) : validator :=
  foldl one_round st rs.

(** Every round of [rs] completes with at least one candidate, and
    [pt.alpha] is [a] throughout. *)
Fixpoint all_scored (a : R) (rs : list round) (st : validator) : Prop :=
  match rs with
  | [] => True
  | r :: rs' =>
      alpha (round_env r) = a /\
      candidates (round_env r) (with_synced st r) <> [] /\
      (exists st', run_step (round_env r) (with_synced st r) = Completed st') /\
      all_scored a rs' (one_round st r)
  end.

End Env.
Arguments round : clear implicits.

End MainLoop.

(** ** More sample rounds *)

Module SampleRounds.
Import Tensor Ranking Round Sample MainLoop.

(** The lone candidate with no batch to evaluate on. *)
Definition no_batches : env Q nat sample_loss :=
  sample_env (fun _ => None) 0 ascending 30 (1 / 2).

(** An active uid beyond the end of the weight vector. *)
Definition stray : validator :=
  {| weights := [Fin 0]; uids_to_eval := {[ 5%Z ]};
     pending_uids_to_eval := ∅ |}.

Definition stray_scores : list score :=
  [ {| uid_of := 5; wins_of := 0; total_matches_of := 0; win_rate_of := 0 |} ].

(** Two weights, of which the round scores the first. *)
Definition two_slots : validator :=
  {| weights := [Fin 0; Fin (1 / 2)]; uids_to_eval := {[ 0%Z ]};
     pending_uids_to_eval := ∅ |}.

(** Two candidates on two batches: uid 0 has a model of loss 1, the model of
    uid 1 is not there.  Four matches are played; uid 0 wins both of its
    own, uid 1 none. *)
Definition pair : env Q nat sample_loss :=
  sample_env (fun uid => if decide (uid = 0%Z) then Some 1%Q else None)
    2 ascending 30 (1 / 2).

Definition duo : validator :=
  {| weights := [Fin 0; Fin 0]; uids_to_eval := {[ 0%Z; 1%Z ]};
     pending_uids_to_eval := ∅ |}.

Definition present : score :=
  {| uid_of := 0; wins_of := 2; total_matches_of := 2; win_rate_of := 2 # 2 |}.

Definition absent : score :=
  {| uid_of := 1; wins_of := 0; total_matches_of := 2; win_rate_of := 0 # 2 |}.

Definition pair_scores : list score := [present; absent].

(** A pass of the main loop: the lone candidate, a round of 1500 seconds,
    nothing synced meanwhile. *)
Definition lone_pass : round Q nat sample_loss :=
  {| round_env := lone; round_seconds := 1500; synced := ∅ |}.

(** The same pass after the update thread has synced uid 3. *)
Definition synced_pass : round Q nat sample_loss :=
  {| round_env := lone; round_seconds := 1500; synced := {[ 3%Z ]} |}.

End SampleRounds.

(** * Properties *)

(** ** BlockMonitor *)

Section BlockMonitorFacts.
Import BlockMonitor.

Lemma try_get_block_late ttl w :
  (ttl <= finishes_after w)%Z -> try_get_block ttl w = None.
Proof.
  intros H. unfold try_get_block.
  destruct (Z.leb_spec ttl (finishes_after w)); [done | lia].
Qed.

Lemma try_get_block_in_time ttl w :
  (finishes_after w < ttl)%Z -> try_get_block ttl w = get_block (query w).
Proof.
  intros H. unfold try_get_block.
  destruct (Z.leb_spec ttl (finishes_after w)); [lia | done].
Qed.

(** C10.  [try_get_block ttl] is [None] when the worker outlives the
    deadline, and also when the worker ends in time but its chain query
    raised; so [None] does not tell that [ttl] elapsed (for every [ttl]
    greater than the time a failing worker needs there is such a run).  A
    result [Some n] is the block number the worker fetched, within the
    deadline. *)
Theorem try_get_block_none_is_ambiguous (ttl : Z) (w : worker) :
  ((ttl <= finishes_after w)%Z -> try_get_block ttl w = None) /\
  ((finishes_after w < ttl)%Z -> query w = FetchError ->
     try_get_block ttl w = None) /\
  (forall n, try_get_block ttl w = Some n ->
     query w = Fetched n /\ (finishes_after w < ttl)%Z) /\
  (exists w', (finishes_after w' < ttl)%Z /\ try_get_block ttl w' = None).
Proof.
  repeat split.
  - apply try_get_block_late.
  - intros Ht Hq. rewrite try_get_block_in_time by done. by rewrite Hq.
  - destruct (Z.le_gt_cases ttl (finishes_after w)) as [Hl|Hl].
    + rewrite try_get_block_late in H by done. done.
    + rewrite try_get_block_in_time in H by lia.
      destruct (query w); simpl in H; congruence.
  - destruct (Z.le_gt_cases ttl (finishes_after w)) as [Hl|Hl]; [|done].
    rewrite try_get_block_late in H by done. done.
  - exists {| finishes_after := ttl - 1; query := FetchError |}. simpl.
    split; [lia|]. rewrite try_get_block_in_time by (simpl; lia). done.
Qed.

(** A worker that fails after 3 seconds under a deadline of 10. *)
Lemma try_get_block_none_is_ambiguous_witness :
  try_get_block 10 {| finishes_after := 3; query := FetchError |} = None.
Proof.
  apply (proj1 (proj2 (try_get_block_none_is_ambiguous 10
           {| finishes_after := 3; query := FetchError |}))).
  - simpl. lia.
  - reflexivity.
Defined.

End BlockMonitorFacts.

(** ** ModelSyncScheduler *)

Section SchedulerFacts.
Import BlockMonitor Scheduler.

Lemma iteration_no_block s t :
  try_get_block 10 (block_worker t) = None -> iteration s t = s.
Proof. intros H. unfold iteration. by rewrite H. Qed.

Lemma iteration_same_slot s t block :
  try_get_block 10 (block_worker t) = Some block ->
  (block mod 256)%Z = last_uid_update s ->
  iteration s t = s.
Proof.
  intros Hb Hs. unfold iteration. rewrite Hb. simpl.
  by rewrite decide_True.
Qed.

(** A pass that reaches the sync: the block came in time and its slot is
    not the one of the pass before. *)
Lemma iteration_sync s t block :
  try_get_block 10 (block_worker t) = Some block ->
  (block mod 256)%Z <> last_uid_update s ->
  let uid := (block mod 256)%Z in
  let s' := iteration s t in
  last_uid_update s' = uid /\
  sync_calls s' = sync_calls s ++ [uid] /\
  (sync_outcome t <> SyncRaised ->
     pending s' = {[ uid ]} ∪ pending s /\ errors_logged s' = errors_logged s) /\
  (sync_outcome t = SyncRaised ->
     pending s' = pending s /\ errors_logged s' = errors_logged s ++ [uid]).
Proof.
  intros Hb Hs. unfold iteration. rewrite Hb. simpl.
  rewrite decide_False by done.
  destruct (sync_outcome t); simpl; (split; [done|]); (split; [done|]);
    split; intros; done.
Qed.

Lemma at_block_fetch block r :
  try_get_block 10 (block_worker (at_block block r)) = Some block.
Proof. reflexivity. Qed.

(** C8.  A pass whose slot ([block mod 256]) is the slot of the pass before
    changes nothing: no sync is requested and the pending set is the same.
    On blocks whose slots are 5, 5, 6 (syncs that return) the loop syncs 5,
    skips the second 5 and syncs 6; 5 and 6 are each added once. *)
Theorem duplicate_slot_is_skipped :
  (forall s t block,
     try_get_block 10 (block_worker t) = Some block ->
     (block mod 256)%Z = last_uid_update s ->
     iteration s t = s) /\
  (forall p b1 b2 b3 r1 r2 r3,
     (b1 mod 256 = 5)%Z -> (b2 mod 256 = 5)%Z -> (b3 mod 256 = 6)%Z ->
     r1 <> SyncRaised -> r3 <> SyncRaised ->
     let s1 := update_models [at_block b1 r1] (init p) in
     let s3 := update_models [at_block b1 r1; at_block b2 r2; at_block b3 r3]
                 (init p) in
     sync_calls s1 = [5%Z] /\ pending s1 = {[ 5%Z ]} ∪ p /\
     iteration s1 (at_block b2 r2) = s1 /\
     sync_calls s3 = [5%Z; 6%Z] /\
     pending s3 = {[ 6%Z ]} ∪ ({[ 5%Z ]} ∪ p)).
Proof.
  split; [apply iteration_same_slot|].
  intros p b1 b2 b3 r1 r2 r3 H1 H2 H3 Hr1 Hr3. simpl.
  destruct (iteration_sync (init p) (at_block b1 r1) b1) as (L1 & C1 & P1 & _);
    [apply at_block_fetch | rewrite H1; unfold init; simpl; lia |].
  destruct (P1 Hr1) as [P1' _]. rewrite H1 in *.
  assert (S2 : iteration (iteration (init p) (at_block b1 r1)) (at_block b2 r2)
               = iteration (init p) (at_block b1 r1)).
  { apply (iteration_same_slot _ _ b2); [apply at_block_fetch | congruence]. }
  rewrite S2.
  destruct (iteration_sync (iteration (init p) (at_block b1 r1))
              (at_block b3 r3) b3) as (L3 & C3 & P3 & _);
    [apply at_block_fetch | rewrite H3, L1; lia |].
  destruct (P3 Hr3) as [P3' _]. rewrite H3 in *.
  repeat split; try done.
  - rewrite C3, C1. done.
  - rewrite P3', P1'. done.
Qed.

(** The second pass at block 5. *)
Lemma duplicate_slot_is_skipped_witness :
  iteration (update_models [at_block 5 Pulled] (init ∅)) (at_block 5 Pulled)
  = update_models [at_block 5 Pulled] (init ∅).
Proof.
  apply (proj1 duplicate_slot_is_skipped _ _ 5%Z).
  - reflexivity.
  - reflexivity.
Defined.

(** C9, as the code has it.  In a pass that reaches the sync, the slot is
    added to the pending set when the sync returns, whether it pulled a new
    model or not.  When the sync raises, the error is logged and the pending
    set stays as it was.  Either way the loop goes on: the next pass that
    brings another slot syncs that slot. *)
Theorem sync_failure_is_isolated s t block t' block' :
  try_get_block 10 (block_worker t) = Some block ->
  (block mod 256)%Z <> last_uid_update s ->
  try_get_block 10 (block_worker t') = Some block' ->
  (block' mod 256)%Z <> (block mod 256)%Z ->
  let uid := (block mod 256)%Z in
  (sync_outcome t <> SyncRaised -> uid ∈ pending (iteration s t)) /\
  (sync_outcome t = SyncRaised ->
     pending (iteration s t) = pending s /\
     errors_logged (iteration s t) = errors_logged s ++ [uid]) /\
  sync_calls (update_models [t; t'] s)
  = sync_calls s ++ [uid; (block' mod 256)%Z].
Proof.
  intros Hb Hs Hb' Hs'. simpl.
  destruct (iteration_sync s t block Hb Hs) as (L & C & P & E).
  split; [|split].
  - intros Hr. destruct (P Hr) as [-> _].
    apply elem_of_union_l, elem_of_singleton. done.
  - exact E.
  - destruct (iteration_sync (iteration s t) t' block' Hb') as (_ & C' & _).
    { by rewrite L. }
    rewrite C', C, <- app_assoc. done.
Qed.

(** A sync that raises at slot 5, then slot 6. *)
Lemma sync_failure_is_isolated_witness :
  sync_calls (update_models [at_block 5 SyncRaised; at_block 6 Pulled] (init ∅))
  = [5%Z; 6%Z].
Proof.
  apply (proj2 (proj2 (sync_failure_is_isolated (init ∅)
           (at_block 5 SyncRaised) 5 (at_block 6 Pulled) 6
           eq_refl ltac:(vm_compute; discriminate) eq_refl
           ltac:(vm_compute; discriminate)))).
Defined.

(** C9 as stated fails: the pass at block 5 reaches the sync (it is in the
    log of sync calls), the sync raises, and 5 is not in the pending set. *)
Lemma failed_sync_is_not_pending :
  sync_calls (iteration (init ∅) (at_block 5 SyncRaised)) = [5%Z] /\
  5%Z ∉ pending (iteration (init ∅) (at_block 5 SyncRaised)).
Proof. split; [reflexivity | set_solver]. Qed.

End SchedulerFacts.

(** ** Tensors *)

Section TensorFacts.
Import Tensor.
Local Open Scope R_scope.

Lemma rsum_cons x xs : rsum (x :: xs) = x + rsum xs.
Proof. reflexivity. Qed.

Lemma tsum_cons x t : tsum (x :: t) = fadd x (tsum t).
Proof. reflexivity. Qed.

Lemma tsum_fin xs : tsum (Fin <$> xs) = Fin (rsum xs).
Proof.
  induction xs as [|x xs IH]; [done|].
  by rewrite fmap_cons, tsum_cons, IH.
Qed.

Lemma rsum_nonneg xs : Forall (Rle 0) xs -> 0 <= rsum xs.
Proof.
  induction 1 as [|x xs Hx _ IH]; [cbv; lra|]. rewrite rsum_cons. lra.
Qed.

Lemma rsum_pos xs : Forall (Rle 0) xs -> Exists (Rlt 0) xs -> 0 < rsum xs.
Proof.
  intros Hn Hp. induction Hp as [x xs Hx | x xs Hp IH]; rewrite rsum_cons.
  - apply Forall_cons in Hn as [_ Hn]. apply rsum_nonneg in Hn. lra.
  - apply Forall_cons in Hn as [Hx Hn]. specialize (IH Hn). lra.
Qed.

Lemma rsum_scale c xs : rsum ((fun x => x / c) <$> xs) = rsum xs / c.
Proof.
  induction xs as [|x xs IH]; [cbv; lra|].
  rewrite fmap_cons, !rsum_cons, IH. lra.
Qed.

Lemma rsum_zip_affine a b ws rs :
  length ws = length rs ->
  rsum (zip_with (fun w r => a * w + b * r) ws rs) = a * rsum ws + b * rsum rs.
Proof.
  revert rs. induction ws as [|w ws IH]; intros [|r rs] Hl; simpl in Hl;
    try discriminate; [cbv; lra|].
  change (zip_with (fun w r => a * w + b * r) (w :: ws) (r :: rs))
    with ((a * w + b * r) :: zip_with (fun w r => a * w + b * r) ws rs).
  rewrite !rsum_cons, IH by lia. lra.
Qed.

Lemma nan_to_num_no_nan t : Forall (fun x => x <> NaN) (nan_to_num t).
Proof.
  unfold nan_to_num. apply Forall_fmap, Forall_forall.
  intros [x| | |] _; simpl; discriminate.
Qed.

Lemma nan_to_num_finite t : Forall finite (nan_to_num t).
Proof.
  unfold nan_to_num. apply Forall_fmap, Forall_forall.
  intros [x| | |] _; simpl; eexists; done.
Qed.

Lemma nan_to_num_fin xs : nan_to_num (Fin <$> xs) = Fin <$> xs.
Proof.
  unfold nan_to_num. rewrite <- list_fmap_compose. done.
Qed.

Lemma nan_to_num_length t : length (nan_to_num t) = length t.
Proof. apply length_fmap. Qed.

Lemma finite_fmap_fin t : Forall finite t -> exists xs, t = Fin <$> xs.
Proof.
  induction 1 as [|x t [r ->] _ [xs ->]].
  - by exists [].
  - by exists (r :: xs).
Qed.

(** *** Softmax *)

Lemma rsum_exp_pos xs : xs <> [] -> 0 < rsum (exp <$> xs).
Proof.
  intros Hne. apply rsum_pos.
  - apply Forall_fmap, Forall_forall. intros x _. simpl.
    left. apply exp_pos.
  - destruct xs as [|x xs]; [done|]. left. apply exp_pos.
Qed.

Lemma softmax_length xs : length (softmax xs) = length xs.
Proof. unfold softmax. by rewrite !length_fmap. Qed.

Lemma softmax_pos xs : Forall (Rlt 0) (softmax xs).
Proof.
  destruct (decide (xs = [])) as [->|Hne]; [constructor|].
  unfold softmax. rewrite <- list_fmap_compose.
  apply Forall_fmap, Forall_forall. intros x _. simpl.
  apply Rdiv_lt_0_compat; [apply exp_pos | by apply rsum_exp_pos].
Qed.

Lemma softmax_sum xs : xs <> [] -> rsum (softmax xs) = 1.
Proof.
  intros Hne. unfold softmax. rewrite rsum_scale.
  pose proof (rsum_exp_pos xs Hne). field. lra.
Qed.

Lemma softmax_singleton x : softmax [x] = [1].
Proof.
  unfold softmax. simpl. f_equal. unfold rsum. simpl.
  pose proof (exp_pos x). field. lra.
Qed.

(** *** Writing into a tensor *)

Lemma position_lt n i k : position n i = Ok k -> (k < n)%nat.
Proof.
  unfold position. repeat case_decide; intros [= <-]; lia.
Qed.

Lemma position_in_range n i :
  (0 <= i < Z.of_nat n)%Z -> position n i = Ok (Z.to_nat i).
Proof. intros H. unfold position. by rewrite decide_True. Qed.

Lemma setitem_fin xs i v t :
  setitem (Fin <$> xs) i (Fin v) = Ok t ->
  exists k, (k < length xs)%nat /\ t = Fin <$> <[k := v]> xs.
Proof.
  unfold setitem. rewrite length_fmap.
  destruct (position (length xs) i) as [k|] eqn:Hk; simpl; [|done].
  intros [= <-]. exists k. split; [by eapply position_lt|].
  by rewrite list_fmap_insert.
Qed.

Lemma setitem_ok t i v :
  (0 <= i < Z.of_nat (length t))%Z ->
  setitem t i v = Ok (<[Z.to_nat i := v]> t).
Proof. intros H. unfold setitem. by rewrite position_in_range. Qed.

Lemma setitem_raises t i v x : setitem t i v = Raise x -> x = IndexError.
Proof.
  unfold setitem, position. repeat case_decide; simpl; congruence.
Qed.

Lemma insert_nonneg k v xs :
  0 < v -> Forall (Rle 0) xs -> Forall (Rle 0) (<[k := v]> xs).
Proof.
  intros Hv Hx. apply Forall_insert; [done | lra].
Qed.

Lemma insert_has_pos k v (xs : list R) :
  (k < length xs)%nat -> 0 < v -> Exists (Rlt 0) (<[k := v]> xs).
Proof.
  intros Hk Hv. apply Exists_exists. exists v. split; [|done].
  apply list_elem_of_lookup. exists k. by apply list_lookup_insert_eq.
Qed.

(** *** Scaling, adding, dividing *)

Lemma div_scalar_fin xs s :
  s <> 0 -> div_scalar (Fin <$> xs) (Fin s) = Fin <$> ((fun x => x / s) <$> xs).
Proof.
  intros Hs. unfold div_scalar. rewrite <- !list_fmap_compose.
  apply list_fmap_ext. intros _ x _. simpl.
  destruct (Req_EM_T s 0); [done|done].
Qed.

Lemma div_scalar_zeros (t : list fval) :
  div_scalar (zeros_like t) (Fin 0) = (fun _ => NaN) <$> t.
Proof.
  unfold div_scalar, zeros_like. rewrite <- list_fmap_compose.
  apply list_fmap_ext. intros _ x _. simpl.
  destruct (Req_EM_T 0 0) as [_|Hne]; [|done].
  unfold by_sign. destruct (Rlt_dec 0 0); [lra|done].
Qed.

Lemma tsum_zeros (t : list fval) : tsum (zeros_like t) = Fin 0.
Proof.
  induction t as [|x t IH]; [done|].
  unfold zeros_like in *. rewrite fmap_cons, tsum_cons, IH. simpl.
  f_equal. lra.
Qed.

Lemma fmul_nan_r a : fmul a NaN = NaN.
Proof. by destruct a. Qed.

Lemma fadd_nan_r a : fadd a NaN = NaN.
Proof. by destruct a. Qed.

Lemma tadd_scale_fin a b ws rs :
  tadd (scale a (Fin <$> ws)) (scale b (Fin <$> rs))
  = Fin <$> zip_with (fun w r => a * w + b * r) ws rs.
Proof.
  unfold tadd, scale. rewrite <- !list_fmap_compose.
  revert rs. induction ws as [|w ws IH]; intros [|r rs]; simpl; try done.
  by rewrite IH.
Qed.

Lemma tadd_scale_nan a b (w t : list fval) :
  tadd (scale a w) (scale b ((fun _ => NaN) <$> t))
  = (fun _ => NaN) <$> zip w t.
Proof.
  unfold tadd, scale. revert t.
  induction w as [|x w IH]; intros [|y t]; try done.
  rewrite !fmap_cons. cbn [zip_with zip]. rewrite !fmap_cons.
  rewrite fmul_nan_r, fadd_nan_r. f_equal. apply IH.
Qed.

End TensorFacts.

(** ** Loops with exceptions *)

Section LoopFacts.
Context {A B : Type}.
Implicit Types (body : B -> A -> result B) (xs : list A).

Lemma bind_ok {X Y} (m : result X) (k : X -> result Y) y :
  m ≫= k = Ok y -> exists x, m = Ok x /\ k x = Ok y.
Proof. destruct m as [x|]; simpl; [eauto | done]. Qed.

Lemma bind_raise {X Y} (m : result X) (k : X -> result Y) x :
  m ≫= k = Raise x -> m = Raise x \/ exists a, m = Ok a /\ k a = Raise x.
Proof. destruct m as [a|]; simpl; [eauto | intros [= ->]; eauto]. Qed.

Lemma for_each_cons body x xs acc :
  for_each body (x :: xs) acc = body acc x ≫= for_each body xs.
Proof. reflexivity. Qed.

(** An invariant of the body is an invariant of the loop. *)
Lemma for_each_invariant (P : B -> Prop) body xs acc r :
  (forall a x a', x ∈ xs -> P a -> body a x = Ok a' -> P a') ->
  P acc -> for_each body xs acc = Ok r -> P r.
Proof.
  revert acc. induction xs as [|x xs IH]; intros acc Hb Hacc Hr.
  - by injection Hr as <-.
  - rewrite for_each_cons in Hr. apply bind_ok in Hr as (a' & Ha' & Hr).
    apply (IH a'); [|by eapply Hb; [left|..]|done].
    intros a y a'' Hy. apply Hb. by right.
Qed.

(** The loop raises only what its body raises. *)
Lemma for_each_raises (Q : exn -> Prop) body xs acc x :
  (forall a y x', body a y = Raise x' -> Q x') ->
  for_each body xs acc = Raise x -> Q x.
Proof.
  intros Hb. revert acc. induction xs as [|y xs IH]; intros acc Hr; [done|].
  rewrite for_each_cons in Hr. apply bind_raise in Hr as [Hr|(a & _ & Hr)].
  - by eapply Hb.
  - by eapply IH.
Qed.

(** A body that returns under the invariant makes the loop return. *)
Lemma for_each_returns (P : B -> Prop) body xs acc :
  (forall a x, x ∈ xs -> P a -> exists a', body a x = Ok a' /\ P a') ->
  P acc -> exists r, for_each body xs acc = Ok r.
Proof.
  revert acc. induction xs as [|x xs IH]; intros acc Hb Hacc; [by eexists|].
  destruct (Hb acc x) as (a' & Ha' & HP); [by left | done |].
  rewrite for_each_cons, Ha'. simpl. apply IH; [|done].
  intros a y Hy. apply Hb. by right.
Qed.

End LoopFacts.

(** ** Tournament scoring *)

Section ScoringFacts.
Import Tensor Ranking Round.
Context {model batch loss : Type}.
Implicit Types (e : env model batch loss) (ei ej : Z * Z * list loss).

Lemma getitem_ok {X} (l : list X) i :
  i < length l -> exists a, getitem l i = Ok a /\ l !! i = Some a.
Proof.
  intros Hi. unfold getitem.
  destruct (lookup_lt_is_Some_2 l i Hi) as [a Ha]. rewrite Ha. eauto.
Qed.

Lemma getitem_raises {X} (l : list X) i x :
  getitem l i = Raise x -> x = IndexError.
Proof. unfold getitem. destruct (l !! i); congruence. Qed.

Lemma duel_ok e ei ej acc b acc' :
  duel e ei ej acc b = Ok acc' ->
  acc'.2 = S acc.2 /\ acc.1 <= acc'.1 <= S acc.1.
Proof.
  unfold duel. intros H.
  apply bind_ok in H as (li & _ & H). apply bind_ok in H as (lj & _ & H).
  injection H as <-. simpl. destruct (iswin e li lj _ _); lia.
Qed.

Lemma duel_raises e ei ej acc b x :
  duel e ei ej acc b = Raise x -> x = IndexError.
Proof.
  unfold duel. intros H.
  apply bind_raise in H as [H|(li & _ & H)]; [by eapply getitem_raises|].
  apply bind_raise in H as [H|(lj & _ & H)]; [by eapply getitem_raises|done].
Qed.

Lemma duel_returns e ei ej acc b :
  b < length ei.2 -> b < length ej.2 -> exists acc', duel e ei ej acc b = Ok acc'.
Proof.
  intros Hi Hj. unfold duel.
  destruct (getitem_ok ei.2 b Hi) as (li & -> & _).
  destruct (getitem_ok ej.2 b Hj) as (lj & -> & _). simpl. eauto.
Qed.

(** The loop over the batches adds one match per batch and at most one win
    per match. *)
Lemma duels_ok e ei ej bs acc acc' :
  for_each (duel e ei ej) bs acc = Ok acc' ->
  acc'.2 = acc.2 + length bs /\ acc.1 <= acc'.1 /\ acc'.1 + acc.2 <= acc.1 + acc'.2.
Proof.
  revert acc. induction bs as [|b bs IH]; intros acc H.
  - injection H as <-. simpl. lia.
  - rewrite for_each_cons in H. apply bind_ok in H as (a & Ha & H).
    apply duel_ok in Ha. apply IH in H. simpl. lia.
Qed.

Lemma rivals_out i a n : ~ (a <= i < a + n) -> rivals i a n = n.
Proof.
  unfold rivals. revert a. induction n as [|n IH]; intros a Hi; [done|].
  simpl. rewrite filter_cons_True by lia. simpl. rewrite IH by lia. done.
Qed.

Lemma rivals_in i a n : a <= i < a + n -> rivals i a n = n - 1.
Proof.
  unfold rivals. revert a. induction n as [|n IH]; intros a Hi; [lia|].
  simpl. destruct (decide (a = i)) as [->|Hne].
  - rewrite filter_cons_False by (intros H; by apply H).
    fold (rivals i (S i) n). rewrite rivals_out by lia. lia.
  - rewrite filter_cons_True by done. simpl. rewrite IH by lia. lia.
Qed.

Lemma versus_loop_ok e i ei (l : list (Z * Z * list loss)) a acc acc' :
  for_each (versus e i ei) (zip (seq a (length l)) l) acc = Ok acc' ->
  acc'.2 = acc.2 + rivals i a (length l) * length (batches e) /\
  acc.1 <= acc'.1 /\ acc'.1 + acc.2 <= acc.1 + acc'.2.
Proof.
  revert a acc. induction l as [|ej l IH]; intros a acc H.
  - injection H as <-. unfold rivals. simpl. lia.
  - simpl in H. apply bind_ok in H as (acc1 & H1 & H).
    apply IH in H. unfold versus in H1. simpl in H1.
    unfold rivals in *. simpl. destruct (decide (i = a)) as [->|Hne].
    + injection H1 as <-. rewrite filter_cons_False by (intros ?; done).
      lia.
    + apply duels_ok in H1. rewrite length_seq in H1.
      rewrite filter_cons_True by done. simpl. lia.
Qed.

Lemma versus_raises e i ei acc jej x :
  versus e i ei acc jej = Raise x -> x = IndexError.
Proof.
  unfold versus. case_decide; [done|].
  apply (for_each_raises (fun x => x = IndexError)).
  intros a b x'. apply duel_raises.
Qed.

Lemma versus_returns e i ei acc jej :
  length (batches e) <= length ei.2 ->
  length (batches e) <= length jej.2.2 ->
  exists acc', versus e i ei acc jej = Ok acc'.
Proof.
  intros Hi Hj. unfold versus. case_decide; [by eexists|].
  apply (for_each_returns (fun _ => True)); [|done].
  intros a b Hb _. apply elem_of_seq in Hb.
  destruct (duel_returns e ei jej.2 a b) as [a' Ha']; [lia..|]. eauto.
Qed.

Lemma enumerate_lookup {X} (l : list X) i x :
  l !! i = Some x -> enumerate l !! i = Some (i, x).
Proof.
  intros H. unfold enumerate. apply lookup_zip_with_Some.
  exists i, x. split; [done|]. split; [|done].
  apply lookup_seq. split; [done|]. by eapply lookup_lt_Some.
Qed.

Lemma enumerate_elem {X} (l : list X) j x :
  (j, x) ∈ enumerate l -> l !! j = Some x.
Proof.
  intros H. apply list_elem_of_lookup in H as [k Hk].
  unfold enumerate in Hk. apply lookup_zip_with_Some in Hk
    as (j' & x' & [= <- <-] & Hj & Hx).
  apply lookup_seq in Hj as [-> _]. done.
Qed.

Lemma rate_bounds w t : w <= t -> (0 <= rate w t <= 1)%Q.
Proof.
  intros Hwt. unfold rate. case_decide; [|split; done].
  unfold Qle. simpl. rewrite Z.mul_1_r.
  assert (Z.pos (Pos.of_nat t) = Z.of_nat t) as ->.
  { rewrite <- positive_nat_Z, Nat2Pos.id by lia. done. }
  lia.
Qed.

(** The score of position [i]: the uid of that candidate, one match per
    rival and batch, no more wins than matches, and the win rate the source
    computes from them. *)
Lemma tally_ok e es i ei s :
  i < length es -> tally e es (i, ei) = Ok s ->
  uid_of s = ei.1.1 /\
  total_matches_of s = (length es - 1) * length (batches e) /\
  wins_of s <= total_matches_of s /\
  win_rate_of s = rate (wins_of s) (total_matches_of s).
Proof.
  intros Hi H. unfold tally in H. apply bind_ok in H as (wt & Hwt & H).
  injection H as <-. simpl. unfold enumerate in Hwt.
  apply versus_loop_ok in Hwt. simpl in Hwt.
  rewrite rivals_in in Hwt by lia. repeat split; lia.
Qed.

(** The wins the loops count are the matches won. *)
Lemma duel_won e ei ej acc b acc' :
  duel e ei ej acc b = Ok acc' -> acc'.1 = acc.1 + won e ei ej b.
Proof.
  unfold duel, won. intros H.
  apply bind_ok in H as (li & Hli & H). apply bind_ok in H as (lj & Hlj & H).
  injection H as <-. unfold getitem in Hli, Hlj.
  destruct (ei.2 !! b) as [li'|]; [|done].
  destruct (ej.2 !! b) as [lj'|]; [|done].
  injection Hli as ->. injection Hlj as ->. done.
Qed.

Lemma duels_won e ei ej bs acc acc' :
  for_each (duel e ei ej) bs acc = Ok acc' ->
  acc'.1 = acc.1 + sum_list (won e ei ej <$> bs).
Proof.
  revert acc. induction bs as [|b bs IH]; intros acc H.
  - injection H as <-. simpl. lia.
  - rewrite for_each_cons in H. apply bind_ok in H as (a & Ha & H).
    apply duel_won in Ha. apply IH in H. csimpl. lia.
Qed.

Lemma versus_loop_won e i ei (l : list (Z * Z * list loss)) a acc acc' :
  for_each (versus e i ei) (zip (seq a (length l)) l) acc = Ok acc' ->
  acc'.1 = acc.1 +
    sum_list ((fun jej : nat * (Z * Z * list loss) =>
                 if decide (i = jej.1) then 0
                 else sum_list (won e ei jej.2 <$> seq 0 (length (batches e))))
              <$> zip (seq a (length l)) l).
Proof.
  revert a acc. induction l as [|ej l IH]; intros a acc H.
  - injection H as <-. simpl. lia.
  - simpl in H. apply bind_ok in H as (acc1 & H1 & H).
    apply IH in H. unfold versus in H1. simpl in H1.
    csimpl. destruct (decide (i = a)) as [->|Hne].
    + injection H1 as <-. lia.
    + apply duels_won in H1. lia.
Qed.

Lemma tally_won e es i ei s :
  tally e es (i, ei) = Ok s -> wins_of s = matches_won e es i ei.
Proof.
  intros H. unfold tally in H. apply bind_ok in H as (wt & Hwt & H).
  injection H as <-. simpl. unfold enumerate in Hwt.
  apply versus_loop_won in Hwt. simpl in Hwt. done.
Qed.

Lemma tally_raises e es iei x : tally e es iei = Raise x -> x = IndexError.
Proof.
  unfold tally. intros H. apply bind_raise in H as [H|(a & _ & H)]; [|done].
  revert H. apply (for_each_raises (fun x => x = IndexError)).
  intros a jej x'. apply versus_raises.
Qed.

Lemma tally_returns e es iei :
  Forall (fun en : Z * Z * list loss => length (batches e) <= length en.2) es ->
  length (batches e) <= length iei.2.2 ->
  exists s, tally e es iei = Ok s.
Proof.
  intros Hes Hi. unfold tally.
  destruct (for_each_returns (fun _ => True) (versus e iei.1 iei.2)
              (enumerate es) (0, 0)) as [r Hr]; [|done|].
  - intros a [j ej] Hj _. apply enumerate_elem in Hj.
    destruct (versus_returns e iei.1 iei.2 a (j, ej)) as [a' Ha']; [done| |eauto].
    simpl. rewrite Forall_forall in Hes. apply Hes.
    by eapply list_elem_of_lookup_2.
  - rewrite Hr. simpl. eauto.
Qed.

Lemma tally_all_ok e es ies ss :
  tally_all e es ies = Ok ss ->
  Forall2 (fun ie s => tally e es ie = Ok s) ies ss.
Proof.
  revert ss. induction ies as [|ie ies IH]; intros ss H; simpl in H.
  - injection H as <-. constructor.
  - apply bind_ok in H as (s & Hs & H). apply bind_ok in H as (ss' & Hss & H).
    injection H as <-. constructor; [done | by apply IH].
Qed.

Lemma tally_all_raises e es ies x :
  tally_all e es ies = Raise x -> x = IndexError.
Proof.
  induction ies as [|ie ies IH]; simpl; [done|]. intros H.
  apply bind_raise in H as [H|(s & _ & H)]; [by eapply tally_raises|].
  apply bind_raise in H as [H|(ss & _ & H)]; [by apply IH | done].
Qed.

Lemma tally_all_returns e es ies :
  Forall (fun en : Z * Z * list loss => length (batches e) <= length en.2) es ->
  Forall (fun ie : nat * (Z * Z * list loss) => length (batches e) <= length ie.2.2) ies ->
  exists ss, tally_all e es ies = Ok ss.
Proof.
  intros Hes. induction 1 as [|ie ies Hie _ [ss IH]]; simpl; [by eexists|].
  destruct (tally_returns e es ie Hes Hie) as [s ->]. rewrite IH. simpl. eauto.
Qed.

End ScoringFacts.

Section RoundScoreFacts.
Import Tensor Ranking Round.
Context {model batch loss : Type}.
Implicit Types (e : env model batch loss) (cs : list (Z * Z)).

Lemma losses_of_length e uid :
  losses_ok e -> length (losses_of e uid) = length (batches e).
Proof.
  intros Hl. unfold losses_of. destruct (load_model e uid) as [m|].
  - apply Hl.
  - apply length_fmap.
Qed.

Lemma compute_all_losses_ok e uids ls :
  compute_all_losses e uids = Ok ls -> ls = losses_of e <$> uids.
Proof.
  revert ls. induction uids as [|uid uids IH]; intros ls H; simpl in H.
  - by injection H as <-.
  - case_decide; [done|]. apply bind_ok in H as (ls' & Hls' & Hr).
    injection Hr as <-. rewrite fmap_cons. f_equal. by apply IH.
Qed.

Lemma compute_all_losses_raises e uids x :
  compute_all_losses e uids = Raise x -> x = ZeroDivisionError.
Proof.
  induction uids as [|uid uids IH]; simpl; [done|].
  case_decide; [congruence|]. intros Hr.
  apply bind_raise in Hr as [Hr|(ls & _ & Hr)]; [by apply IH | done].
Qed.

Lemma compute_all_losses_returns e uids :
  losses_ok e -> batches e <> [] ->
  compute_all_losses e uids = Ok (losses_of e <$> uids).
Proof.
  intros Hl Hb. induction uids as [|uid uids IH]; [done|]. simpl.
  rewrite decide_False.
  - rewrite IH. done.
  - rewrite losses_of_length by done. destruct (batches e); done.
Qed.

(** The entries the scoring loops run over. *)
Lemma score_round_ok e cs ss :
  score_round e cs = Ok ss ->
  let es := zip cs (losses_of e <$> cs.*1) in
  length es = length cs /\
  Forall2 (fun ie s => tally e es ie = Ok s) (enumerate es) ss.
Proof.
  unfold score_round. intros H. apply bind_ok in H as (ls & Hls & H).
  apply compute_all_losses_ok in Hls as ->. simpl. split.
  - rewrite length_zip_with, !length_fmap. lia.
  - by apply tally_all_ok.
Qed.

Lemma score_round_lookup e cs ss i s :
  score_round e cs = Ok ss -> ss !! i = Some s ->
  exists c, cs !! i = Some c /\
    tally e (zip cs (losses_of e <$> cs.*1)) (i, (c, losses_of e c.1)) = Ok s.
Proof.
  intros H Hs. apply score_round_ok in H as [Hlen H].
  destruct (Forall2_lookup_r _ _ _ _ _ H Hs) as (ie & Hie & Ht).
  assert (Hi : i < length cs).
  { rewrite <- Hlen. apply lookup_lt_Some in Hie.
    unfold enumerate in Hie. rewrite length_zip_with, length_seq in Hie. lia. }
  destruct (lookup_lt_is_Some_2 cs i Hi) as [c Hc]. exists c. split; [done|].
  assert (Hze : zip cs (losses_of e <$> cs.*1) !! i = Some (c, losses_of e c.1)).
  { apply lookup_zip_with_Some. exists c, (losses_of e c.1).
    split; [done|]. split; [done|].
    rewrite !list_lookup_fmap, Hc. done. }
  apply enumerate_lookup in Hze. congruence.
Qed.

Lemma score_round_length e cs ss :
  score_round e cs = Ok ss -> length ss = length cs.
Proof.
  intros H. apply score_round_ok in H as [Hlen H].
  apply Forall2_length in H. unfold enumerate in H.
  rewrite length_zip_with, length_seq in H. lia.
Qed.

Lemma score_round_uids e cs ss :
  score_round e cs = Ok ss -> uid_of <$> ss = cs.*1.
Proof.
  intros H. apply list_eq. intros i. rewrite !list_lookup_fmap.
  destruct (ss !! i) as [s|] eqn:Hs; simpl.
  - destruct (score_round_lookup e cs ss i s H Hs) as (c & -> & Ht).
    apply tally_ok in Ht as (-> & _); [done|].
    apply lookup_lt_Some in Hs. apply score_round_length in H.
    rewrite length_zip_with, !length_fmap. lia.
  - apply lookup_ge_None in Hs. apply score_round_length in H.
    rewrite (proj2 (lookup_ge_None cs i)) by lia. done.
Qed.

Lemma score_round_raises_tally e cs ls x :
  compute_all_losses e cs.*1 = Ok ls ->
  score_round e cs = Raise x -> x = IndexError.
Proof.
  intros Hls. unfold score_round. rewrite Hls. simpl. apply tally_all_raises.
Qed.

Lemma score_round_returns e cs :
  losses_ok e -> batches e <> [] \/ cs = [] -> exists ss, score_round e cs = Ok ss.
Proof.
  intros Hl [Hb| ->]; [|by eexists].
  unfold score_round. rewrite compute_all_losses_returns by done. simpl.
  assert (He : Forall (fun en : Z * Z * list loss =>
                         length (batches e) <= length en.2)
                 (zip cs (losses_of e <$> cs.*1))).
  { apply Forall_forall. intros [c l] Hin.
    apply list_elem_of_lookup in Hin as [i Hi].
    apply lookup_zip_with_Some in Hi as (c' & l' & [= <- <-] & _ & Hl').
    apply list_lookup_fmap_Some in Hl' as (u & -> & _). simpl.
    by rewrite losses_of_length. }
  apply tally_all_returns; [done|].
  apply Forall_forall. intros [j en] Hin. simpl.
  apply enumerate_elem in Hin. rewrite Forall_forall in He. apply He.
  by eapply list_elem_of_lookup_2.
Qed.

(** The score at position [i] of a round. *)
Lemma score_round_score e cs ss i s :
  score_round e cs = Ok ss -> ss !! i = Some s ->
  total_matches_of s = (length cs - 1) * length (batches e) /\
  wins_of s <= total_matches_of s /\
  win_rate_of s = rate (wins_of s) (total_matches_of s).
Proof.
  intros H Hs.
  destruct (score_round_lookup e cs ss i s H Hs) as (c & Hc & Ht).
  apply tally_ok in Ht as (_ & Ht & Hw & Hr).
  2:{ rewrite length_zip_with, !length_fmap.
      apply lookup_lt_Some in Hc. lia. }
  rewrite length_zip_with, !length_fmap in Ht.
  replace (length cs `min` length cs) with (length cs) in Ht by lia.
  done.
Qed.

Lemma rate_no_win t : (rate 0 t == 0)%Q.
Proof. unfold rate. case_decide; reflexivity. Qed.

(** Every candidate has its score, at its own position. *)
Lemma score_round_entry e cs ss i c :
  score_round e cs = Ok ss -> cs !! i = Some c ->
  exists s, ss !! i = Some s /\
    tally e (zip cs (losses_of e <$> cs.*1)) (i, (c, losses_of e c.1)) = Ok s.
Proof.
  intros H Hc. pose proof (score_round_length e cs ss H) as Hlen.
  destruct (lookup_lt_is_Some_2 ss i) as [s Hs].
  { rewrite Hlen. by eapply lookup_lt_Some. }
  exists s. split; [done|].
  destruct (score_round_lookup e cs ss i s H Hs) as (c' & Hc' & Ht).
  congruence.
Qed.

(** C5.  The win-rate loops never divide by zero: with the losses at hand
    they raise nothing but [IndexError] (a loss list shorter than the batch
    list), and with one loss per batch they return.  What they return is one
    score per candidate, in the order of the candidates: the score at
    position [i] carries the uid of candidate [i] and, as its wins, the
    matches that candidate won.  Every score has
    [total_matches = (k - 1) * numBatches] for [k] candidates, a win rate of
    [wins / total_matches] when that is positive and of 0 when it is 0, and
    a win rate between 0 and 1. *)
Theorem win_rate_is_safe e cs :
  (forall ls x, compute_all_losses e cs.*1 = Ok ls ->
     score_round e cs = Raise x -> x <> ZeroDivisionError) /\
  (losses_ok e -> batches e <> [] -> exists ss, score_round e cs = Ok ss) /\
  (forall ss, score_round e cs = Ok ss ->
     length ss = length cs /\
     uid_of <$> ss = cs.*1 /\
     (forall i c, cs !! i = Some c ->
        exists s, ss !! i = Some s /\ uid_of s = c.1 /\
          wins_of s
          = matches_won e (zip cs (losses_of e <$> cs.*1)) i
              (c, losses_of e c.1)) /\
     (forall i s, ss !! i = Some s ->
        total_matches_of s = (length cs - 1) * length (batches e) /\
        wins_of s <= total_matches_of s /\
        (0 < total_matches_of s ->
           win_rate_of s
           = Qmake (Z.of_nat (wins_of s)) (Pos.of_nat (total_matches_of s))) /\
        (total_matches_of s = 0 -> win_rate_of s = 0%Q) /\
        (0 <= win_rate_of s <= 1)%Q)).
Proof.
  split; [|split].
  - intros ls x Hls Hr ->.
    by apply (score_round_raises_tally e cs ls) in Hr.
  - intros Hl Hb. apply score_round_returns; auto.
  - intros ss H.
    split; [by apply (score_round_length e)|].
    split; [by apply (score_round_uids e)|]. split.
    + intros i c Hc.
      destruct (score_round_entry e cs ss i c H Hc) as (s & Hs & Ht).
      exists s. split; [done|]. split.
      * apply tally_ok in Ht as (-> & _); [done|].
        rewrite length_zip_with, !length_fmap.
        apply lookup_lt_Some in Hc. lia.
      * by apply tally_won.
    + intros i s Hs.
      destruct (score_round_score e cs ss i s H Hs) as (Ht & Hw & Hr).
      split; [done|]. split; [done|]. rewrite Hr. split; [|split].
      * intros Hp. unfold rate. by rewrite decide_True.
      * intros Hz. unfold rate. rewrite decide_False by lia. done.
      * by apply rate_bounds.
Qed.

End RoundScoreFacts.

(** The three sample candidates, one loss per batch, two batches: the round
    returns, and returns the three scores: 2, 0 and 4 wins of 4 matches for
    the uids 0, 1 and 2. *)
Lemma win_rate_is_safe_witness :
  (exists ss,
     Round.score_round Sample.trio
       (Round.candidates Sample.trio Sample.three_uids) = Ok ss) /\
  length Sample.trio_scores = 3 /\
  Round.uid_of <$> Sample.trio_scores = [0; 1; 2]%Z /\
  (forall i c,
     Round.candidates Sample.trio Sample.three_uids !! i = Some c ->
     exists s, Sample.trio_scores !! i = Some s /\ Round.uid_of s = c.1 /\
       Round.wins_of s
       = Round.matches_won Sample.trio
           (zip (Round.candidates Sample.trio Sample.three_uids)
              (Round.losses_of Sample.trio
                 <$> (Round.candidates Sample.trio Sample.three_uids).*1))
           i (c, Round.losses_of Sample.trio c.1)) /\
  (forall i s, Sample.trio_scores !! i = Some s ->
     Round.total_matches_of s = 4 /\
     Round.wins_of s <= Round.total_matches_of s /\
     (0 < Round.total_matches_of s ->
        Round.win_rate_of s
        = Qmake (Z.of_nat (Round.wins_of s))
            (Pos.of_nat (Round.total_matches_of s))) /\
     (Round.total_matches_of s = 0 -> Round.win_rate_of s = 0%Q) /\
     (0 <= Round.win_rate_of s <= 1)%Q).
Proof.
  split.
  - apply (proj1 (proj2 (win_rate_is_safe Sample.trio
                           (Round.candidates Sample.trio Sample.three_uids)))).
    + intros m. reflexivity.
    + simpl. discriminate.
  - apply (proj2 (proj2 (win_rate_is_safe Sample.trio
                           (Round.candidates Sample.trio Sample.three_uids)))
             Sample.trio_scores).
    vm_compute. reflexivity.
Defined.


(** ** Ranking *)

Section RankingFacts.
Import Ranking.
Context {A : Type} (key : A -> Q).

Lemma insert_desc_perm x l : insert_desc key x l ≡ₚ x :: l.
Proof.
  induction l as [|y l IH]; simpl; [done|].
  destruct (Qle_bool (key y) (key x)); [done|].
  rewrite IH. apply Permutation_swap.
Qed.

Lemma sorted_reverse_perm l : sorted_reverse key l ≡ₚ l.
Proof.
  induction l as [|x l IH]; simpl; [done|].
  rewrite insert_desc_perm. by rewrite IH.
Qed.

Lemma insert_desc_sorted x l :
  StronglySorted (not_below key) l -> StronglySorted (not_below key) (insert_desc key x l).
Proof.
  induction 1 as [|y l Hs IH Hy]; simpl.
  - repeat constructor.
  - destruct (Qle_bool (key y) (key x)) eqn:Hle.
    + apply Qle_bool_iff in Hle. constructor; [by constructor|].
      constructor; [done|]. eapply Forall_impl; [exact Hy|].
      intros b Hb. unfold not_below in *. by eapply Qle_trans.
    + constructor; [done|]. rewrite insert_desc_perm.
      constructor; [|done]. unfold not_below.
      destruct (Qlt_le_dec (key y) (key x)) as [Hlt|Hge]; [|done].
      apply Qlt_le_weak, Qle_bool_iff in Hlt. congruence.
Qed.

Lemma sorted_reverse_sorted l : StronglySorted (not_below key) (sorted_reverse key l).
Proof.
  induction l as [|x l IH]; simpl; [constructor | by apply insert_desc_sorted].
Qed.

(** Insertion keeps the elements of any one key in their order. *)
Lemma insert_desc_stable q x l :
  filter (fun a => (key a == q)%Q) (insert_desc key x l)
  = filter (fun a => (key a == q)%Q) (x :: l).
Proof.
  induction l as [|y l IH]; simpl; [done|].
  destruct (Qle_bool (key y) (key x)) eqn:Hle; [done|].
  rewrite (filter_cons _ y), IH, !(filter_cons _ x), (filter_cons _ y).
  destruct (decide (key x == q)%Q) as [Hx|Hx]; [|done].
  destruct (decide (key y == q)%Q) as [Hy|Hy]; [|done].
  exfalso. assert (Qle_bool (key y) (key x) = true); [|congruence].
  apply Qle_bool_iff. rewrite Hx, Hy. apply Qle_refl.
Qed.

Lemma sorted_reverse_stable q l :
  filter (fun a => (key a == q)%Q) (sorted_reverse key l)
  = filter (fun a => (key a == q)%Q) l.
Proof.
  induction l as [|x l IH]; simpl; [done|].
  rewrite insert_desc_stable, !filter_cons, IH. done.
Qed.

(** What a prefix of a descending list leaves out is not above what it
    keeps. *)
Lemma sorted_take_drop n l a b :
  StronglySorted (not_below key) l -> a ∈ take n l -> b ∈ drop n l -> not_below key a b.
Proof.
  intros Hs. revert n. induction Hs as [|x l Hs IH Hx]; intros n Ha Hb.
  - rewrite take_nil in Ha. by apply elem_of_nil in Ha.
  - destruct n as [|n]; simpl in *; [by apply elem_of_nil in Ha|].
    apply elem_of_cons in Ha as [->|Ha]; [|by eapply IH].
    rewrite Forall_forall in Hx. apply Hx.
    by apply (subseteq_drop n l).
Qed.

Lemma prefix_slice_nonneg (l : list A) n :
  (0 <= n)%Z -> prefix_slice l n = take (Z.to_nat n) l.
Proof. intros H. unfold prefix_slice. by rewrite decide_True. Qed.

Lemma prefix_slice_length (l : list A) n :
  (0 <= n)%Z -> length (prefix_slice l n) <= Z.to_nat n.
Proof.
  intros H. rewrite prefix_slice_nonneg by done. rewrite length_take. lia.
Qed.

End RankingFacts.

(** ** Weight aggregation *)

Section AggregationFacts.
Import Tensor Ranking Round.
Context {model batch loss : Type}.
Implicit Types (e : env model batch loss) (ss : list score).
Local Open Scope R_scope.

(** The loop body of [scatter]. *)
Local Abbreviation write := (fun (t : list fval) (uw : Z * R) => setitem t uw.1 (Fin uw.2)).

Lemma zeros_like_fin (w : list fval) : zeros_like w = Fin <$> ((fun _ => 0) <$> w).
Proof. unfold zeros_like. by rewrite <- list_fmap_compose. Qed.

Lemma const_fmap_zip {X Y Z'} (c : Z') (l : list X) (k : list Y) :
  length l = length k -> (fun _ => c) <$> zip l k = (fun _ => c) <$> l.
Proof.
  revert k. induction l as [|x l IH]; intros [|y k] Hl; simpl in *;
    try done. f_equal. apply IH. lia.
Qed.

Lemma scatter_loop uws xs t :
  for_each write uws (Fin <$> xs) = Ok t ->
  Forall (fun uw : Z * R => 0 < uw.2) uws -> Forall (Rle 0) xs ->
  exists ys, t = Fin <$> ys /\ length ys = length xs /\ Forall (Rle 0) ys /\
    (uws <> [] \/ Exists (Rlt 0) xs -> Exists (Rlt 0) ys).
Proof.
  revert xs. induction uws as [|[u v] uws IH]; intros xs H Hpos Hx.
  - injection H as <-. exists xs. repeat split; try done.
    intros [?|?]; done.
  - rewrite for_each_cons in H. apply bind_ok in H as (t1 & H1 & H).
    apply Forall_cons in Hpos as [Hv Hpos]. simpl in Hv, H1.
    apply setitem_fin in H1 as (k & Hk & ->).
    destruct (IH _ H Hpos) as (ys & -> & Hlen & Hys & Hex).
    { by apply insert_nonneg. }
    exists ys. rewrite length_insert in Hlen. repeat split; try done.
    intros _. apply Hex. right. by apply insert_has_pos.
Qed.

Lemma scatter_length (t : list fval) uids ws t' :
  scatter t uids ws = Ok t' -> length t' = length t.
Proof.
  unfold scatter. apply (for_each_invariant (fun r => length r = length t));
    [|done].
  intros a uw a' _ Ha H. unfold setitem in H.
  apply bind_ok in H as (k & _ & [= <-]). by rewrite length_insert.
Qed.

Lemma scatter_raises (t : list fval) uids ws x :
  scatter t uids ws = Raise x -> x = IndexError.
Proof.
  unfold scatter. apply (for_each_raises (fun x => x = IndexError)).
  intros a uw x'. apply setitem_raises.
Qed.

Lemma scatter_returns (t : list fval) uids ws :
  Forall (fun u => (0 <= u < Z.of_nat (length t))%Z) uids ->
  exists t', scatter t uids ws = Ok t'.
Proof.
  intros Hu. unfold scatter.
  apply (for_each_returns (fun r => length r = length t)); [|done].
  intros a [u v] Hin Ha. simpl.
  assert (u ∈ uids) as Hin'.
  { apply list_elem_of_lookup in Hin as [i Hi].
    apply lookup_zip_with_Some in Hi as (u' & v' & [= <- <-] & Hu' & _).
    by eapply list_elem_of_lookup_2. }
  rewrite Forall_forall in Hu. specialize (Hu u Hin').
  rewrite setitem_ok by (rewrite Ha; done).
  eexists. split; [done|]. by rewrite length_insert.
Qed.

Lemma step_weights_length e ss : length (step_weights e ss) = length ss.
Proof. unfold step_weights. by rewrite softmax_length, length_fmap. Qed.

Lemma step_weights_pos e ss :
  Forall (fun uw : Z * R => 0 < uw.2) (zip (uid_of <$> ss) (step_weights e ss)).
Proof.
  apply Forall_forall. intros [u v] Hin. simpl.
  apply list_elem_of_lookup in Hin as [i Hi].
  apply lookup_zip_with_Some in Hi as (u' & v' & [= <- <-] & _ & Hv).
  pose proof (softmax_pos
    ((fun s => Q2R (win_rate_of s) / temperature e) <$> ss)) as Hp.
  rewrite Forall_forall in Hp. apply Hp. by eapply list_elem_of_lookup_2.
Qed.

Lemma round_vector_empty e (w : list fval) :
  round_vector e w [] = Ok ((fun _ => NaN) <$> w).
Proof.
  unfold round_vector, scatter. simpl.
  by rewrite tsum_zeros, div_scalar_zeros.
Qed.

(** With at least one candidate the round vector is finite, non-negative
    and sums to 1. *)
Lemma round_vector_finite e (w : list fval) ss nw :
  round_vector e w ss = Ok nw -> ss <> [] ->
  exists ys, nw = Fin <$> ys /\ length ys = length w /\ rsum ys = 1 /\
    Forall (Rle 0) ys.
Proof.
  unfold round_vector, scatter. intros H Hne.
  apply bind_ok in H as (t & Ht & [= <-]). rewrite zeros_like_fin in Ht.
  apply scatter_loop in Ht as (ys & -> & Hlen & Hys & Hex).
  2:{ apply step_weights_pos. }
  2:{ apply Forall_fmap, Forall_forall. intros x _. simpl. lra. }
  assert (Hs : 0 < rsum ys).
  { apply rsum_pos; [done|]. apply Hex. left.
    destruct ss as [|s ss]; [done|].
    pose proof (step_weights_length e (s :: ss)) as Hl.
    destruct (step_weights e (s :: ss)); simpl in *; done. }
  rewrite tsum_fin, div_scalar_fin by lra.
  eexists. split; [done|]. rewrite length_fmap in Hlen. rewrite length_fmap.
  split; [done|]. split.
  - rewrite rsum_scale. field. lra.
  - apply Forall_fmap. eapply Forall_impl; [exact Hys|]. intros x Hx. simpl.
    apply Rle_mult_inv_pos; done.
Qed.

Lemma round_vector_length e (w : list fval) ss nw :
  round_vector e w ss = Ok nw -> length nw = length w.
Proof.
  unfold round_vector. intros H. apply bind_ok in H as (t & Ht & [= <-]).
  apply scatter_length in Ht. unfold div_scalar, zeros_like in *.
  rewrite length_fmap in *. done.
Qed.

Lemma update_weights_empty e (w : list fval) :
  update_weights e w [] = Ok (zeros_like w).
Proof.
  unfold update_weights. rewrite round_vector_empty. simpl. f_equal.
  unfold blend. rewrite tadd_scale_nan. unfold nan_to_num, zeros_like.
  rewrite <- list_fmap_compose. by apply (const_fmap_zip (Fin 0)).
Qed.

(** The new weights of a round with candidates, from a finite vector. *)
Lemma update_weights_finite e ws ss w' :
  update_weights e (Fin <$> ws) ss = Ok w' -> ss <> [] ->
  exists ys, length ys = length ws /\ rsum ys = 1 /\ Forall (Rle 0) ys /\
    w' = Fin <$> zip_with (fun w r => alpha e * w + (1 - alpha e) * r) ws ys.
Proof.
  unfold update_weights. intros H Hne.
  apply bind_ok in H as (nw & Hnw & [= <-]).
  apply round_vector_finite in Hnw as (ys & -> & Hlen & Hsum & Hys); [|done].
  rewrite length_fmap in Hlen. exists ys. repeat split; try done.
  unfold blend. by rewrite tadd_scale_fin, nan_to_num_fin.
Qed.

Lemma update_weights_no_nan e (w : list fval) ss w' :
  update_weights e w ss = Ok w' -> Forall (fun x => x <> NaN) w'.
Proof.
  unfold update_weights. intros H. apply bind_ok in H as (nw & _ & [= <-]).
  apply nan_to_num_no_nan.
Qed.

Lemma update_weights_finite_entries e (w : list fval) ss w' :
  update_weights e w ss = Ok w' -> Forall finite w'.
Proof.
  unfold update_weights. intros H. apply bind_ok in H as (nw & _ & [= <-]).
  apply nan_to_num_finite.
Qed.

Lemma update_weights_length e (w : list fval) ss w' :
  update_weights e w ss = Ok w' -> length w' = length w.
Proof.
  unfold update_weights. intros H. apply bind_ok in H as (nw & Hnw & [= <-]).
  apply round_vector_length in Hnw.
  unfold blend, tadd, scale. rewrite nan_to_num_length, length_zip_with.
  rewrite !length_fmap. lia.
Qed.

Lemma update_weights_raises e (w : list fval) ss x :
  update_weights e w ss = Raise x -> x = IndexError.
Proof.
  unfold update_weights, round_vector. intros H.
  apply bind_raise in H as [H|(? & _ & ?)]; [|done].
  apply bind_raise in H as [H|(? & _ & ?)]; [|done].
  by eapply scatter_raises.
Qed.

Lemma update_weights_returns e (w : list fval) ss :
  Forall (fun s => (0 <= uid_of s < Z.of_nat (length w))%Z) ss ->
  exists w', update_weights e w ss = Ok w'.
Proof.
  intros Hu. unfold update_weights, round_vector.
  destruct (scatter_returns (zeros_like w) (uid_of <$> ss) (step_weights e ss))
    as [t ->]; [|simpl; eauto].
  apply Forall_fmap. eapply Forall_impl; [exact Hu|]. intros s Hs. simpl.
  unfold zeros_like. by rewrite length_fmap.
Qed.

End AggregationFacts.

(** ** The round as a whole *)

Section RunStepFacts.
Import Tensor Ranking Round.
Context {model batch loss : Type}.
Implicit Types (e : env model batch loss) (st : validator).

Lemma candidates_elem e st c :
  c ∈ candidates e st ->
  c.1 ∈ set_iter e (uids_to_eval st) /\ metadata e c.1 = Some c.2.
Proof.
  unfold candidates. intros H. apply list_elem_of_omap in H as (uid & Hin & H).
  destruct (metadata e uid) as [t|] eqn:Hm; simpl in H; [|done].
  injection H as <-. done.
Qed.

Lemma candidates_in_set e st c :
  iter_ok e -> c ∈ candidates e st -> c.1 ∈ uids_to_eval st.
Proof.
  intros Hi Hc. apply candidates_elem in Hc as [Hc _].
  rewrite (Hi (uids_to_eval st)) in Hc. by apply elem_of_elements in Hc.
Qed.

(** What a completed round did. *)
Lemma run_step_completed e st st' :
  run_step e st = Completed st' ->
  exists ss w,
    score_round e (candidates e st) = Ok ss /\
    update_weights e (weights st) ss = Ok w /\
    st' = {| weights := w;
             uids_to_eval :=
               list_to_set (top_uids e ss) ∪ pending_uids_to_eval st;
             pending_uids_to_eval := ∅ |}.
Proof.
  unfold run_step. intros H.
  destruct (score_round e (candidates e st)) as [ss|]; [|done].
  destruct (update_weights e (weights st) ss) as [w|] eqn:Hw; [|done].
  destruct (log_step e ss); [|done]. injection H as <-. by exists ss, w.
Qed.

(** A round completes when the scorer returns one loss per batch, there is
    a batch, and every uid of the set that has metadata is an index of the
    weight vector. *)
Lemma run_step_returns e st :
  iter_ok e -> losses_ok e -> batches e <> [] ->
  (forall uid, uid ∈ uids_to_eval st -> is_Some (metadata e uid) ->
     (0 <= uid < Z.of_nat (length (weights st)))%Z) ->
  exists st', run_step e st = Completed st'.
Proof.
  intros Hi Hl Hb Hu. unfold run_step.
  destruct (score_round_returns e (candidates e st) Hl (or_introl Hb))
    as [ss Hss]. rewrite Hss.
  destruct (update_weights_returns e (weights st) ss) as [w ->].
  { apply Forall_forall. intros s Hs.
    assert (uid_of s ∈ uid_of <$> ss) as Hin by (by apply list_elem_of_fmap_2).
    rewrite (score_round_uids e _ ss Hss) in Hin.
    apply list_elem_of_fmap in Hin as (c & -> & Hc).
    apply Hu; [by eapply candidates_in_set|].
    apply candidates_elem in Hc as [_ ->]. done. }
  unfold log_step. destruct ss; [by eexists|].
  rewrite decide_False; [by eexists|]. by destruct (batches e).
Qed.

(** A round that ends with an exception leaves the state as it was, unless
    the exception is the division by [len(batches)] in [log_step]. *)
Lemma run_step_aborted e st :
  batches e <> [] ->
  state_of (run_step e st) = st \/ exists st', run_step e st = Completed st'.
Proof.
  intros Hb. unfold run_step.
  destruct (score_round e (candidates e st)) as [ss|]; [|by left].
  destruct (update_weights e (weights st) ss) as [w|]; [|by left].
  right. unfold log_step. destruct ss; [by eexists|].
  rewrite decide_False; [by eexists|]. by destruct (batches e).
Qed.

Lemma size_union_le (X Y : gset Z) : size (X ∪ Y) <= size X + size Y.
Proof.
  rewrite size_union_alt.
  assert (size (Y ∖ X) <= size Y); [|lia].
  apply subseteq_size. intros x Hx. by apply elem_of_difference in Hx as [? _].
Qed.

Lemma size_list_to_set_le (l : list Z) : size (list_to_set l : gset Z) <= length l.
Proof.
  induction l as [|x l IH].
  - rewrite list_to_set_nil, size_empty. done.
  - rewrite list_to_set_cons. cbn [length].
    pose proof (size_union_le {[ x ]} (list_to_set l)) as H.
    rewrite size_singleton in H. lia.
Qed.

End RunStepFacts.

(** ** A candidate whose model is not there *)

Section MissingModelFacts.
Import Tensor Ranking Round.
Context {model batch loss : Type}.
Implicit Types (e : env model batch loss).

(** Losses that never win leave the win count where it was. *)
Lemma duels_no_win e (ei ej : Z * Z * list loss) bs acc acc' :
  (forall b l, ei.2 !! b = Some l -> forall l' t t', iswin e l l' t t' = false) ->
  for_each (duel e ei ej) bs acc = Ok acc' -> acc'.1 = acc.1.
Proof.
  intros Hnw.
  apply (for_each_invariant (fun a => a.1 = acc.1)); [|done].
  intros a b a' _ Ha H. unfold duel in H.
  apply bind_ok in H as (li & Hli & H). apply bind_ok in H as (lj & _ & H).
  injection H as <-. simpl. unfold getitem in Hli.
  destruct (ei.2 !! b) as [l|] eqn:Hb; [|done]. injection Hli as ->.
  rewrite (Hnw b li Hb). lia.
Qed.

Lemma tally_no_win e es (iei : nat * (Z * Z * list loss)) s :
  (forall b l, iei.2.2 !! b = Some l ->
     forall l' t t', iswin e l l' t t' = false) ->
  tally e es iei = Ok s -> wins_of s = 0.
Proof.
  intros Hnw H. unfold tally in H. apply bind_ok in H as (wt & Hwt & H).
  injection H as <-. simpl.
  revert Hwt. apply (for_each_invariant (fun a => a.1 = 0)); [|done].
  intros a jej a' _ Ha H. unfold versus in H. case_decide.
  - by injection H as <-.
  - apply duels_no_win in H; [congruence | done].
Qed.

Lemma losses_of_missing e uid :
  load_model e uid = None ->
  losses_of e uid = replicate (length (batches e)) (inf e).
Proof.
  intros H. unfold losses_of. rewrite H.
  induction (batches e) as [|b bs IH]; simpl; [done | by rewrite <- IH].
Qed.

End MissingModelFacts.

(** ** The sample rounds *)

Section SampleFacts.
Import Tensor Ranking Round Sample TimeBox.
Local Open Scope R_scope.

Lemma ascending_ok s : ascending s ≡ₚ elements s.
Proof. apply merge_sort_Permutation. Qed.

Lemma descending_ok s : descending s ≡ₚ elements s.
Proof. unfold descending. rewrite reverse_Permutation. apply ascending_ok. Qed.

Lemma sample_losses_ok models n iter k a :
  losses_ok (sample_env models n iter k a).
Proof. intros m. simpl. apply length_fmap. Qed.

Lemma lone_scored : score_round lone (candidates lone fresh) = Ok lone_scores.
Proof. vm_compute. reflexivity. Qed.

Lemma tie_scored : score_round tie (candidates tie two_uids) = Ok tie_scores.
Proof. vm_compute. reflexivity. Qed.

Lemma trio_scored :
  score_round trio (candidates trio three_uids) = Ok trio_scores.
Proof. vm_compute. reflexivity. Qed.

Lemma single_sum (ys : list R) :
  length ys = 1%nat -> rsum ys = 1 -> ys = [1].
Proof.
  destruct ys as [|y [|]]; try done. intros _ H.
  rewrite rsum_cons in H. f_equal. unfold rsum in H. simpl in H. lra.
Qed.

(** The round vector of the lone candidate: all of the score. *)
Lemma lone_round_vector :
  round_vector lone (weights fresh) lone_scores = Ok [Fin 1].
Proof.
  destruct (update_weights_returns lone (weights fresh) lone_scores)
    as [w Hw].
  { repeat constructor; simpl; lia. }
  unfold update_weights in Hw. apply bind_ok in Hw as (nw & Hnw & _).
  rewrite Hnw. f_equal.
  apply round_vector_finite in Hnw as (ys & -> & Hlen & Hsum & _); [|done].
  by rewrite (single_sum ys Hlen Hsum).
Qed.

Lemma lone_weights :
  update_weights lone (weights fresh) lone_scores = Ok [Fin (1 / 2)].
Proof.
  unfold update_weights. rewrite lone_round_vector. simpl.
  unfold blend, tadd, scale, nan_to_num. simpl. do 3 f_equal. lra.
Qed.

Lemma lone_round : run_step lone fresh = Completed after_first_round.
Proof.
  unfold run_step. rewrite lone_scored, lone_weights. simpl.
  unfold after_first_round. do 2 f_equal.
Qed.

Lemma frozen_round : run_step frozen settled = Completed zeroed.
Proof.
  unfold run_step.
  change (candidates frozen settled) with (@nil (Z * Z)).
  change (score_round frozen []) with (@Ok (list score) []).
  cbv beta iota. rewrite update_weights_empty. simpl. unfold zeroed. f_equal.
Qed.

End SampleFacts.

(** ** The weight vector after a round *)

Section WeightClaims.
Import Tensor Ranking Round Sample.
Local Open Scope R_scope.

(** C1, as the code has it.  After a completed round the persisted weight
    vector has no NaN entry (every entry is finite) and the length it had.
    When the round had no candidate (no uid of the
    active set has metadata) the vector is all zeros.  When it had one or
    more and the old vector was finite with sum [S], the new vector sums to
    [alpha * S + (1 - alpha)]: to 1 when the old one summed to 1, and to
    [1 - alpha] when the old one summed to 0, as the zero vector of the
    first round does. *)
Theorem weights_after_round {model batch loss : Type}
    (e : env model batch loss) (st st' : validator) :
  run_step e st = Completed st' ->
  Forall (fun x => x <> NaN) (weights st') /\
  Forall finite (weights st') /\
  length (weights st') = length (weights st) /\
  (candidates e st = [] -> weights st' = zeros_like (weights st)) /\
  (forall ws, candidates e st <> [] -> weights st = Fin <$> ws ->
     tsum (weights st') = Fin (alpha e * rsum ws + (1 - alpha e)) /\
     (rsum ws = 1 -> tsum (weights st') = Fin 1) /\
     (rsum ws = 0 -> tsum (weights st') = Fin (1 - alpha e))).
Proof.
  intros H. apply run_step_completed in H as (ss & w & Hss & Hw & ->). simpl.
  split; [by eapply update_weights_no_nan|].
  split; [by eapply update_weights_finite_entries|].
  split; [by eapply update_weights_length|]. split.
  - intros Hc. rewrite Hc in Hss. injection Hss as <-.
    rewrite update_weights_empty in Hw. by injection Hw as <-.
  - intros ws Hc Hws. rewrite Hws in Hw.
    assert (ss <> []) as Hne.
    { apply score_round_length in Hss. destruct ss, (candidates e st); done. }
    apply update_weights_finite in Hw as (ys & Hlen & Hsum & _ & ->); [|done].
    rewrite tsum_fin, rsum_zip_affine, Hsum by done.
    split; [f_equal; lra|]. split; intros ->; f_equal; lra.
Qed.

(** The first round of the lone candidate. *)
Lemma weights_after_round_witness :
  Forall (fun x => x <> NaN) (weights after_first_round).
Proof.
  apply (proj1 (weights_after_round lone fresh after_first_round lone_round)).
Defined.

(** C1 as stated fails in the first round: from the zero vector, with
    [alpha = 1/2] and one candidate, the round completes with the weight
    vector [1/2], which does not sum to 1. *)
Lemma first_round_sums_to_half :
  weights fresh = [Fin 0] /\
  run_step lone fresh = Completed after_first_round /\
  tsum (weights after_first_round) = Fin (1 / 2) /\
  tsum (weights after_first_round) <> Fin 1.
Proof.
  split; [done|]. split; [apply lone_round|].
  assert (tsum (weights after_first_round) = Fin (1 / 2)) as ->.
  { unfold after_first_round, tsum. simpl. f_equal. lra. }
  split; [done|]. intros [= H]. lra.
Qed.

(** C7, as the code has it.  For finite vectors of one length the blend is
    [alpha * old + (1 - alpha) * round] entry by entry, and [nan_to_num]
    leaves it as it is; with [alpha = 1] it is the old vector, with
    [alpha = 0] the round vector.  Against a round vector of NaN (that of a
    round without candidates) the update stores the zero vector, whatever
    [alpha] is. *)
Theorem blend_of_finite_vectors (a : R) (ws rs : list R) :
  length ws = length rs ->
  blend a (Fin <$> ws) (Fin <$> rs)
  = Fin <$> zip_with (fun w r => a * w + (1 - a) * r) ws rs /\
  nan_to_num (blend a (Fin <$> ws) (Fin <$> rs))
  = blend a (Fin <$> ws) (Fin <$> rs) /\
  blend 1 (Fin <$> ws) (Fin <$> rs) = Fin <$> ws /\
  blend 0 (Fin <$> ws) (Fin <$> rs) = Fin <$> rs /\
  (forall w : list fval,
     nan_to_num (blend a w ((fun _ => NaN) <$> w)) = zeros_like w).
Proof.
  intros Hlen. unfold blend. rewrite !tadd_scale_fin, nan_to_num_fin.
  split; [done|]. split; [done|]. split; [|split].
  - f_equal. revert rs Hlen.
    induction ws as [|w ws IH]; intros [|r rs] Hlen; simpl in *; try done.
    f_equal; [lra | apply IH; lia].
  - f_equal. revert rs Hlen.
    induction ws as [|w ws IH]; intros [|r rs] Hlen; simpl in *; try done.
    f_equal; [lra | apply IH; lia].
  - intros w. rewrite tadd_scale_nan. unfold nan_to_num, zeros_like.
    rewrite <- list_fmap_compose. by apply (const_fmap_zip (Fin 0)).
Qed.

(** With [alpha = 1] the blend of [1/2] and [1] is [1/2]. *)
Lemma blend_of_finite_vectors_witness :
  blend 1 [Fin (1 / 2)] [Fin 1] = [Fin (1 / 2)].
Proof.
  apply (proj1 (proj2 (proj2
           (blend_of_finite_vectors 1 [1 / 2] [1] eq_refl)))).
Defined.

(** C7 as stated fails with [alpha = 1]: the weight vector [1] is not left
    as it is by a round without candidates; the blend with the NaN round
    vector is NaN and the vector stored is [0]. *)
Lemma blend_with_alpha_one_changes_weights :
  alpha frozen = 1 /\
  blend 1 [Fin 1] [NaN] = [NaN] /\
  run_step frozen settled = Completed zeroed /\
  weights zeroed <> weights settled.
Proof.
  split; [done|]. split; [done|]. split; [apply frozen_round|].
  unfold zeroed, settled. simpl. intros [= H]. lra.
Qed.

End WeightClaims.

(** ** The active set after a round *)

Section PoolClaims.
Import Tensor Ranking Round Sample PoolSpec.

(** The three candidates of the sample: uid 2 (loss 1/2) wins all four
    matches, uid 0 (loss 1) wins the two against uid 1; with room for two the
    round keeps 2 and 0. *)
Example trio_top_uids : top_uids trio trio_scores = [2%Z; 0%Z].
Proof. by vm_compute. Qed.

Lemma trio_completes : exists st', run_step trio three_uids = Completed st'.
Proof.
  apply run_step_returns.
  - intros s. apply ascending_ok.
  - apply sample_losses_ok.
  - done.
  - intros uid Hin _.
    change (length (weights three_uids)) with 4.
    change (uids_to_eval three_uids) with ({[ 0%Z; 1%Z; 2%Z ]} : gset Z) in Hin.
    rewrite !elem_of_union, !elem_of_singleton in Hin. lia.
Qed.

Lemma tie_completes : exists st', run_step tie two_uids = Completed st'.
Proof.
  apply run_step_returns.
  - intros s. apply descending_ok.
  - apply sample_losses_ok.
  - done.
  - intros uid Hin _.
    change (length (weights two_uids)) with 9.
    change (uids_to_eval two_uids) with ({[ 1%Z; 8%Z ]} : gset Z) in Hin.
    rewrite !elem_of_union, !elem_of_singleton in Hin. lia.
Qed.

Lemma ranks_before_le a b :
  ranks_before a b -> (win_rate_of b <= win_rate_of a)%Q.
Proof.
  intros [H|[H _]]; [by apply Qlt_le_weak|].
  rewrite H. apply Qle_refl.
Qed.

Lemma ranks_before_by_uid a b :
  (win_rate_of b <= win_rate_of a)%Q -> (uid_of a <= uid_of b)%Z ->
  ranks_before a b.
Proof.
  intros Hr Hu. apply Qle_lteq in Hr as [Hr|Hr]; [by left|].
  right. split; [by symmetry | done].
Qed.

(** Inserting a score whose uid is below all the others keeps the order of
    the specification. *)
Lemma insert_desc_by_uid x l :
  Forall (fun y => (uid_of x < uid_of y)%Z) l ->
  StronglySorted ranks_before l ->
  StronglySorted ranks_before (insert_desc win_rate_of x l).
Proof.
  intros Hx Hs. induction Hs as [|y l Hs IH Hy]; simpl.
  - repeat constructor.
  - apply Forall_cons in Hx as [Hxy Hx].
    destruct (Qle_bool (win_rate_of y) (win_rate_of x)) eqn:Hle.
    + apply Qle_bool_iff in Hle. constructor; [by constructor|].
      constructor; [apply ranks_before_by_uid; [done | lia]|].
      rewrite Forall_forall in Hx, Hy. apply Forall_forall. intros z Hz.
      apply ranks_before_by_uid; [|specialize (Hx z Hz); lia].
      eapply Qle_trans; [|exact Hle]. by apply ranks_before_le, Hy.
    + constructor; [by apply IH|]. rewrite insert_desc_perm.
      constructor; [|done]. left.
      destruct (Qlt_le_dec (win_rate_of x) (win_rate_of y)) as [Hlt|Hge];
        [done|].
      apply Qle_bool_iff in Hge. congruence.
Qed.

(** On a uid list in ascending order the ranking of the code is the one of
    the specification. *)
Lemma sorted_reverse_by_uid ss :
  StronglySorted Z.lt (uid_of <$> ss) ->
  StronglySorted ranks_before (sorted_reverse win_rate_of ss).
Proof.
  induction ss as [|x ss IH]; intros Hs; simpl; [constructor|].
  rewrite fmap_cons in Hs. apply StronglySorted_inv in Hs as [Hs Hx].
  apply insert_desc_by_uid; [|by apply IH].
  rewrite sorted_reverse_perm. rewrite Forall_fmap in Hx. exact Hx.
Qed.

(** C3.  With [sample_min] a count (not negative), a completed round puts
    every pending uid into the next active set, whatever its rank; that set
    has at most [sample_min + |pending|] members; and the pending set is
    empty afterwards. *)
Theorem pending_is_merged {model batch loss : Type}
    (e : env model batch loss) (st st' : validator) :
  (0 <= sample_min e)%Z ->
  run_step e st = Completed st' ->
  pending_uids_to_eval st ⊆ uids_to_eval st' /\
  (Z.of_nat (size (uids_to_eval st'))
     <= sample_min e + Z.of_nat (size (pending_uids_to_eval st)))%Z /\
  pending_uids_to_eval st' = ∅.
Proof.
  intros Hn H. apply run_step_completed in H as (ss & w & _ & _ & ->). simpl.
  split; [apply union_subseteq_r|]. split; [|done].
  pose proof (size_union_le (list_to_set (top_uids e ss))
                (pending_uids_to_eval st)) as Hu.
  pose proof (size_list_to_set_le (top_uids e ss)) as Hl.
  unfold top_uids in Hl. rewrite length_fmap in Hl.
  pose proof (prefix_slice_length (sorted_reverse win_rate_of ss)
                (sample_min e) Hn).
  unfold top_uids in *. lia.
Qed.

(** The round of the three candidates, with uid 3 pending. *)
Lemma pending_is_merged_witness :
  exists st', run_step trio three_uids = Completed st' /\
    pending_uids_to_eval three_uids ⊆ uids_to_eval st' /\
    pending_uids_to_eval st' = ∅.
Proof.
  destruct trio_completes as [st' H]. exists st'. split; [done|].
  destruct (pending_is_merged trio three_uids st') as (H1 & _ & H3).
  - simpl. lia.
  - exact H.
  - split; [exact H1 | exact H3].
Defined.

(** C6, as the code has it.  After a completed round the next active set
    is the pending set together with the uids of the first [sample_min]
    scores of the ranking.  The ranking is a rearrangement of the round's
    scores in descending order of win rate in which scores of equal win rate
    keep the order they have in the round's uid list, which is the order in
    which the active set was enumerated; when that order is ascending, ties
    are broken by ascending uid.  With [sample_min] not negative, no score
    left out has a higher win rate than one that is kept. *)
Theorem next_active_set {model batch loss : Type}
    (e : env model batch loss) (st st' : validator) (ss : list score) :
  run_step e st = Completed st' ->
  score_round e (candidates e st) = Ok ss ->
  uids_to_eval st'
  = list_to_set (uid_of <$> prefix_slice (sorted_reverse win_rate_of ss)
                                (sample_min e))
    ∪ pending_uids_to_eval st /\
  sorted_reverse win_rate_of ss ≡ₚ ss /\
  StronglySorted (not_below win_rate_of) (sorted_reverse win_rate_of ss) /\
  (forall q, filter (fun s => (win_rate_of s == q)%Q)
               (sorted_reverse win_rate_of ss)
             = filter (fun s => (win_rate_of s == q)%Q) ss) /\
  uid_of <$> ss = (candidates e st).*1 /\
  (StronglySorted Z.lt (candidates e st).*1 ->
   StronglySorted ranks_before (sorted_reverse win_rate_of ss)) /\
  ((0 <= sample_min e)%Z ->
   forall a b,
     a ∈ take (Z.to_nat (sample_min e)) (sorted_reverse win_rate_of ss) ->
     b ∈ drop (Z.to_nat (sample_min e)) (sorted_reverse win_rate_of ss) ->
     (win_rate_of b <= win_rate_of a)%Q).
Proof.
  intros H Hss. apply run_step_completed in H as (ss' & w & Hss' & _ & ->).
  rewrite Hss in Hss'. injection Hss' as <-. simpl.
  split; [done|]. split; [apply sorted_reverse_perm|].
  split; [apply sorted_reverse_sorted|].
  split; [intros q; apply sorted_reverse_stable|].
  split; [by apply (score_round_uids e)|].
  split.
  { intros Hasc. apply sorted_reverse_by_uid.
    by rewrite (score_round_uids e _ ss Hss). }
  intros _ a b Ha Hb.
  by apply (sorted_take_drop win_rate_of (Z.to_nat (sample_min e)) _ a b
              (sorted_reverse_sorted win_rate_of ss)).
Qed.

(** The round of the three candidates: the ranking is a rearrangement of
    the scores. *)
Lemma next_active_set_witness :
  exists st', run_step trio three_uids = Completed st' /\
    sorted_reverse win_rate_of trio_scores ≡ₚ trio_scores.
Proof.
  destruct trio_completes as [st' H]. exists st'. split; [done|].
  apply (proj1 (proj2 (next_active_set trio three_uids st' trio_scores
                         H trio_scored))).
Defined.

(** C6 as stated fails on a tie.  The set [{1, 8}] is enumerated as 8, 1;
    both candidates have win rate 0 and [sample_min] is 1.  The code keeps
    uid 8, the first of the two in the uid list; ascending uid would keep
    uid 1. *)
Lemma tie_is_not_broken_by_uid :
  candidates tie two_uids = [(8%Z, 0%Z); (1%Z, 0%Z)] /\
  score_round tie (candidates tie two_uids) = Ok tie_scores /\
  top_uids tie tie_scores = [8%Z] /\
  spec_top_uids 1 tie_scores = [1%Z] /\
  exists st', run_step tie two_uids = Completed st' /\
    uids_to_eval st' = {[ 8%Z ]}.
Proof.
  split; [by vm_compute|]. split; [apply tie_scored|].
  split; [by vm_compute|]. split; [by vm_compute|].
  destruct tie_completes as [st' H]. exists st'. split; [done|].
  apply run_step_completed in H as (ss & w & Hss & _ & ->). simpl.
  rewrite tie_scored in Hss. injection Hss as <-.
  change (top_uids tie tie_scores) with [8%Z].
  apply set_eq. intros x. rewrite elem_of_union, elem_of_list_to_set.
  rewrite list_elem_of_singleton, elem_of_singleton.
  split; [intros [?|?]; [done | by apply elem_of_empty in H] | by left].
Qed.

End PoolClaims.

(** ** The deadline of a round *)

Section TimeBoxClaims.
Import Tensor Ranking Round Sample TimeBox.

(** With a positive [ttl], [try_run_step] does what [run_step] does,
    however long the round takes. *)
Lemma try_run_step_blocks {model batch loss : Type}
    (e : env model batch loss) (ttl seconds : Z) (st : validator) :
  (0 < ttl)%Z ->
  try_run_step e ttl seconds st =
  match run_step e st with
  | Completed st' => Returned st'
  | Aborted x st' => Raised x st'
  end.
Proof.
  intros Ht. unfold try_run_step, wait_for, run_step_coroutine.
  rewrite decide_False by lia. simpl. by destruct (run_step e st).
Qed.

(** The [except asyncio.TimeoutError] branch is reached only with a [ttl]
    that is not positive, before the round starts. *)
Lemma try_run_step_timeout {model batch loss : Type}
    (e : env model batch loss) (ttl seconds : Z) (st st' : validator) :
  try_run_step e ttl seconds st = TimeoutError st' ->
  (ttl <= 0)%Z /\ st' = st.
Proof.
  unfold try_run_step, wait_for, run_step_coroutine.
  case_decide; [by intros [= <-]|]. simpl. by destruct (run_step e st).
Qed.

(** C2 fails on the code.  A round that takes 1500 seconds under a deadline
    of 1200 is not abandoned: [try_run_step] returns after the round has
    completed, with the weight vector changed. *)
Theorem deadline_does_not_stop_round :
  try_run_step lone 1200 1500 fresh = Returned after_first_round /\
  weights after_first_round <> weights fresh.
Proof.
  split.
  - rewrite try_run_step_blocks by lia. by rewrite lone_round.
  - unfold after_first_round, fresh. simpl. intros [= H]. lra.
Qed.

End TimeBoxClaims.

(** ** How a round ends *)

Section RunStepEndings.
Import Tensor Ranking Round.
Context {model batch loss : Type}.
Implicit Types (e : env model batch loss) (st : validator) (ss : list score).

Lemma position_ok_iff n i : (exists k, position n i = Ok k) <-> indexes n i.
Proof.
  unfold position, indexes. repeat case_decide; split; intros H'; try lia;
    try (by eexists); by destruct H'.
Qed.

Lemma scatter_ok_positions (t t' : list fval) (uws : list (Z * R)) :
  for_each (fun t uw => setitem t uw.1 (Fin uw.2)) uws t = Ok t' ->
  Forall (fun uw : Z * R => indexes (length t) uw.1) uws.
Proof.
  revert t. induction uws as [|[u v] uws IH]; intros t H; [constructor|].
  rewrite for_each_cons in H. apply bind_ok in H as (t1 & H1 & H).
  unfold setitem in H1. simpl in H1.
  apply bind_ok in H1 as (k & Hk & [= <-]).
  constructor.
  - simpl. apply position_ok_iff. eauto.
  - apply IH in H. by rewrite length_insert in H.
Qed.

Lemma scatter_returns_indexes (t : list fval) uids ws :
  Forall (indexes (length t)) uids -> exists t', scatter t uids ws = Ok t'.
Proof.
  intros Hu. unfold scatter.
  apply (for_each_returns (fun r => length r = length t)); [|done].
  intros a [u v] Hin Ha. simpl.
  assert (u ∈ uids) as Hin'.
  { apply list_elem_of_lookup in Hin as [i Hi].
    apply lookup_zip_with_Some in Hi as (u' & v' & [= <- <-] & Hu' & _).
    by eapply list_elem_of_lookup_2. }
  rewrite Forall_forall in Hu. specialize (Hu u Hin').
  apply position_ok_iff in Hu as [k Hk]. unfold setitem. rewrite Ha, Hk.
  simpl. eexists. split; [done|]. by rewrite length_insert.
Qed.

(** The weights are updated exactly when every uid scored is an index of
    the weight vector. *)
Lemma update_weights_ok_iff e (w : list fval) ss :
  (exists w', update_weights e w ss = Ok w') <->
  Forall (fun s => indexes (length w) (uid_of s)) ss.
Proof.
  split.
  - intros [w' H]. unfold update_weights, round_vector, scatter in H.
    apply bind_ok in H as (nw & H & _). apply bind_ok in H as (t & H & _).
    apply scatter_ok_positions in H. unfold zeros_like in H.
    rewrite length_fmap in H. rewrite Forall_forall in H.
    apply Forall_forall. intros s Hs.
    apply list_elem_of_lookup in Hs as [i Hi].
    destruct (lookup_lt_is_Some_2 (step_weights e ss) i) as [v Hv].
    { rewrite step_weights_length. by eapply lookup_lt_Some. }
    apply (H (uid_of s, v)). apply list_elem_of_lookup. exists i.
    apply lookup_zip_with_Some. exists (uid_of s), v.
    by rewrite list_lookup_fmap, Hi.
  - intros Hu. unfold update_weights, round_vector.
    destruct (scatter_returns_indexes (zeros_like w) (uid_of <$> ss)
                (step_weights e ss)) as [t ->]; [|simpl; eauto].
    apply Forall_fmap. unfold zeros_like. rewrite length_fmap. exact Hu.
Qed.

Lemma score_round_without_batches e (cs : list (Z * Z)) :
  losses_ok e -> batches e = [] -> cs <> [] ->
  score_round e cs = Raise ZeroDivisionError.
Proof.
  intros Hl Hb Hc. unfold score_round. destruct cs as [|c cs]; [done|].
  rewrite fmap_cons. simpl.
  rewrite decide_True; [done|].
  rewrite losses_of_length by done. by rewrite Hb.
Qed.

(** X1.  An empty batch list: the average loss of the first candidate divides by
    zero, and nothing has been assigned yet. *)
Theorem run_step_without_batches e st :
  losses_ok e -> batches e = [] -> candidates e st <> [] ->
  run_step e st = Aborted ZeroDivisionError st.
Proof.
  intros Hl Hb Hc. unfold run_step.
  by rewrite score_round_without_batches.
Qed.

Lemma uid_out_of_range_aborts e st ss c :
  score_round e (candidates e st) = Ok ss ->
  c ∈ candidates e st ->
  ~ indexes (length (weights st)) c.1 ->
  run_step e st = Aborted IndexError st.
Proof.
  intros Hss Hc Hout. unfold run_step. rewrite Hss.
  destruct (update_weights e (weights st) ss) as [w|x] eqn:Hw.
  - exfalso. apply Hout.
    assert (exists w', update_weights e (weights st) ss = Ok w') as Hex
      by eauto.
    apply update_weights_ok_iff in Hex. rewrite Forall_forall in Hex.
    assert (c.1 ∈ uid_of <$> ss) as Hin.
    { rewrite (score_round_uids e _ ss Hss). by apply list_elem_of_fmap_2. }
    apply list_elem_of_fmap in Hin as (s & -> & Hs). by apply Hex.
  - by rewrite (update_weights_raises e _ ss x Hw).
Qed.

(** X2.  A candidate whose uid is not an index of the weight vector: the write
    into [new_weights] raises, and nothing has been assigned yet. *)
Theorem run_step_uid_out_of_range e st ss c :
  score_round e (candidates e st) = Ok ss ->
  c ∈ candidates e st ->
  ~ indexes (length (weights st)) c.1 ->
  run_step e st = Aborted IndexError st.
Proof. apply uid_out_of_range_aborts. Qed.

(** X3.  With a scorer that returns one loss per batch, a round completes
    exactly when there is a batch (or no candidate) and every candidate's
    uid is an index of the weight vector. *)
Theorem run_step_completes_iff e st :
  losses_ok e ->
  (exists st', run_step e st = Completed st') <->
  (batches e <> [] \/ candidates e st = []) /\
  Forall (fun c : Z * Z => indexes (length (weights st)) c.1)
    (candidates e st).
Proof.
  intros Hl. split.
  - intros [st' H]. split.
    + destruct (decide (batches e = [])) as [Hb|Hb]; [|by left].
      right. destruct (candidates e st) as [|c cs] eqn:Hc; [done|].
      unfold run_step in H.
      rewrite Hc, score_round_without_batches in H by done. done.
    + apply run_step_completed in H as (ss & w & Hss & Hw & _).
      assert (exists w', update_weights e (weights st) ss = Ok w') as Hex
        by eauto.
      apply update_weights_ok_iff in Hex.
      assert (Forall (indexes (length (weights st))) (candidates e st).*1)
        as H1.
      { rewrite <- (score_round_uids e _ ss Hss). apply Forall_fmap.
        exact Hex. }
      rewrite Forall_fmap in H1. exact H1.
  - intros [Hb Hu]. unfold run_step.
    destruct (score_round_returns e (candidates e st) Hl Hb) as [ss Hss].
    rewrite Hss.
    destruct (proj2 (update_weights_ok_iff e (weights st) ss)) as [w ->].
    { assert (Forall (indexes (length (weights st))) (candidates e st).*1)
        as H1 by (apply Forall_fmap; exact Hu).
      rewrite <- (score_round_uids e _ ss Hss) in H1.
      rewrite Forall_fmap in H1. exact H1. }
    unfold log_step. destruct ss as [|s ss]; [by eexists|].
    destruct Hb as [Hb|Hb].
    + rewrite decide_False; [by eexists|]. by destruct (batches e).
    + apply score_round_length in Hss. by rewrite Hb in Hss.
Qed.

Lemma top_uids_nil e : top_uids e [] = [].
Proof.
  unfold top_uids, prefix_slice.
  change (sorted_reverse win_rate_of []) with (@nil score).
  case_decide; by rewrite take_nil.
Qed.

(** X4.  A round in which no uid of the active set has metadata: the weights
    become zero and the pending set becomes the active set. *)
Theorem run_step_without_candidates e st :
  candidates e st = [] ->
  run_step e st =
  Completed {| weights := zeros_like (weights st);
               uids_to_eval := pending_uids_to_eval st;
               pending_uids_to_eval := ∅ |}.
Proof.
  intros Hc. unfold run_step. rewrite Hc.
  change (score_round e []) with (@Ok (list score) []). cbv beta iota.
  rewrite update_weights_empty, top_uids_nil. simpl. do 2 f_equal.
  apply (left_id_L ∅ (∪)).
Qed.

End RunStepEndings.

(** ** The weights over the rounds of the main loop *)

Section WeightsOverRounds.
Import Tensor Ranking Round TimeBox MainLoop.
Context {model batch loss : Type}.
Implicit Types (e : env model batch loss) (st : validator).
Local Open Scope R_scope.

Lemma rsum_zeros {X} (l : list X) : rsum ((fun _ => 0) <$> l) = 0.
Proof.
  induction l as [|x l IH]; [done|]. rewrite fmap_cons, rsum_cons, IH. lra.
Qed.

Lemma rsum_upper xs x :
  Forall (Rle 0) xs -> x ∈ xs -> x <= rsum xs.
Proof.
  intros Hn Hx. induction Hn as [|y xs Hy Hn IH]; [by apply elem_of_nil in Hx|].
  rewrite rsum_cons. apply elem_of_cons in Hx as [->|Hx].
  - apply rsum_nonneg in Hn. lra.
  - specialize (IH Hx). lra.
Qed.

Lemma Forall_zip_with_both {X Y W} (f : X -> Y -> W) (P : X -> Prop)
    (Q : Y -> Prop) (T : W -> Prop) xs ys :
  (forall x y, P x -> Q y -> T (f x y)) ->
  Forall P xs -> Forall Q ys -> Forall T (zip_with f xs ys).
Proof.
  intros Hf HP. revert ys. induction HP as [|x xs Hx HP IH];
    intros ys HQ; [constructor|].
  destruct HQ as [|y ys Hy HQ]; simpl; [constructor|].
  constructor; [by apply Hf | by apply IH].
Qed.

Lemma subdistribution_zeros (w : list fval) : subdistribution (zeros_like w).
Proof.
  exists ((fun _ => 0) <$> w). split; [apply zeros_like_fin|]. split.
  - apply Forall_fmap, Forall_forall. intros x _. simpl. lra.
  - rewrite rsum_zeros. lra.
Qed.

(** The weight update keeps a subdistribution when [alpha] is between 0 and
    1. *)
Lemma update_weights_subdistribution e (w w' : list fval) ss :
  0 <= alpha e <= 1 -> subdistribution w ->
  update_weights e w ss = Ok w' -> subdistribution w'.
Proof.
  intros Ha (ws & -> & Hws & Hsum) Hw.
  destruct (decide (ss = [])) as [->|Hne].
  - rewrite update_weights_empty in Hw. injection Hw as <-.
    apply subdistribution_zeros.
  - apply update_weights_finite in Hw as (ys & Hlen & Hys & Hnn & ->); [|done].
    assert (rsum (zip_with (fun w r => alpha e * w + (1 - alpha e) * r) ws ys)
            <= 1) as Hle.
    { rewrite rsum_zip_affine, Hys by done. nra. }
    eexists. split; [done|]. split; [|done].
    apply (Forall_zip_with_both _ (fun x => 0 <= x <= 1) (fun y => 0 <= y <= 1));
      [|done|].
    + intros x y Hx Hy. nra.
    + apply Forall_forall. intros y Hy. split.
      * rewrite Forall_forall in Hnn. by apply Hnn.
      * rewrite <- Hys. by apply rsum_upper.
Qed.

(** Whatever way a round ends, the weights are the old ones or the result
    of the weight update. *)
Lemma run_step_weights e st :
  weights (state_of (run_step e st)) = weights st \/
  exists ss, update_weights e (weights st) ss
             = Ok (weights (state_of (run_step e st))).
Proof.
  unfold run_step.
  destruct (score_round e (candidates e st)) as [ss|]; [|by left].
  destruct (update_weights e (weights st) ss) as [w|] eqn:Hw; [|by left].
  right. exists ss. rewrite Hw. by destruct (log_step e ss).
Qed.

Lemma one_round_state st (r : round model batch loss) :
  one_round st r = state_of (run_step (round_env r) (with_synced st r)).
Proof.
  unfold one_round. rewrite try_run_step_blocks by lia.
  by destruct (run_step (round_env r) (with_synced st r)).
Qed.

(** X5.  Over any rounds of the main loop, however each one ends, the weight
    vector stays a subdistribution (finite entries in [0, 1], sum at most
    1) of the length it had, provided [pt.alpha] is between 0 and 1. *)
Theorem weights_stay_subdistribution (rs : list (round model batch loss)) st :
  Forall (fun r => 0 <= alpha (round_env r) <= 1) rs ->
  subdistribution (weights st) ->
  subdistribution (weights (run_rounds rs st)) /\
  length (weights (run_rounds rs st)) = length (weights st).
Proof.
  intros Ha. revert st. induction Ha as [|r rs Hr Ha IH]; intros st Hst;
    [done|].
  unfold run_rounds. simpl. fold (run_rounds rs (one_round st r)).
  assert (subdistribution (weights (one_round st r)) /\
          length (weights (one_round st r)) = length (weights st)) as [H1 H2].
  { rewrite one_round_state.
    destruct (run_step_weights (round_env r) (with_synced st r))
      as [->|[ss Hw]]; [done|]. split.
    - by eapply update_weights_subdistribution.
    - by apply update_weights_length in Hw. }
  destruct (IH _ H1) as [H3 H4]. split; [done | congruence].
Qed.

(** X6.  After [n] rounds that each complete with at least one candidate, a
    finite weight vector of sum [S] sums to [alpha^n * S + 1 - alpha^n];
    from the zero vector of [__init__] that is [1 - alpha^n]. *)
Theorem weights_sum_after_rounds (a : R) (rs : list (round model batch loss))
    st (ws : list R) :
  all_scored a rs st ->
  weights st = Fin <$> ws ->
  tsum (weights (run_rounds rs st))
  = Fin (a ^ length rs * rsum ws + (1 - a ^ length rs)) /\
  (rsum ws = 0 ->
   tsum (weights (run_rounds rs st)) = Fin (1 - a ^ length rs)).
Proof.
  intros Hall Hws.
  assert (tsum (weights (run_rounds rs st))
          = Fin (a ^ length rs * rsum ws + (1 - a ^ length rs))) as Hsum.
  { revert st ws Hall Hws. induction rs as [|r rs IH]; intros st ws Hall Hws.
    - simpl. rewrite Hws, tsum_fin. f_equal. lra.
    - destruct Hall as (Hal & Hc & [st' Hrun] & Hall).
      unfold run_rounds. simpl. fold (run_rounds rs (one_round st r)).
      assert (one_round st r = st') as Hone.
      { by rewrite one_round_state, Hrun. }
      rewrite Hone in *.
      apply run_step_completed in Hrun as (ss & w & Hss & Hw & ->).
      simpl in Hw. rewrite Hws in Hw.
      assert (ss <> []) as Hne.
      { apply score_round_length in Hss.
        destruct ss, (candidates (round_env r) (with_synced st r)); done. }
      apply update_weights_finite in Hw as (ys & Hlen & Hys & _ & ->); [|done].
      rewrite (IH _ _ Hall eq_refl). f_equal.
      rewrite rsum_zip_affine, Hys, Hal by done. simpl. ring. }
  split; [done|]. intros H0. rewrite Hsum, H0. f_equal. ring.
Qed.

(** X14.  A uid the update thread synced before a round is in the active set
    after it, and the pending set is empty again. *)
Theorem synced_uid_is_active st (r : round model batch loss) st' uid :
  run_step (round_env r) (with_synced st r) = Completed st' ->
  uid ∈ synced r ->
  uid ∈ uids_to_eval (one_round st r) /\
  pending_uids_to_eval (one_round st r) = ∅.
Proof.
  intros H Hu. rewrite one_round_state, H. simpl.
  apply run_step_completed in H as (ss & w & _ & _ & ->). simpl.
  split; [|done]. apply elem_of_union_r. simpl. by apply elem_of_union_r.
Qed.

(** X15.  A round that raises with a batch at hand raises before it assigns
    anything: weights and active set are as before and the pending uids,
    the synced ones among them, wait for the next round. *)
Theorem failed_round_keeps_pending st (r : round model batch loss) :
  batches (round_env r) <> [] ->
  (forall st', run_step (round_env r) (with_synced st r) <> Completed st') ->
  one_round st r = with_synced st r.
Proof.
  intros Hb Hf. rewrite one_round_state.
  destruct (run_step_aborted (round_env r) (with_synced st r) Hb)
    as [H|[st' H]]; [done|]. by apply Hf in H.
Qed.

End WeightsOverRounds.

(** ** The new weight of one uid *)

Section WeightOfOneUid.
Import Tensor Ranking Round.
Context {model batch loss : Type}.
Implicit Types (e : env model batch loss) (st : validator) (ss : list score).
Local Open Scope R_scope.

Local Abbreviation write :=
  (fun (t : list fval) (uw : Z * R) => setitem t uw.1 (Fin uw.2)).

(** A position no write aims at keeps its entry. *)
Lemma scatter_unwritten (uws : list (Z * R)) (t t' : list fval) k :
  for_each write uws t = Ok t' ->
  (forall uw, uw ∈ uws -> position (length t) uw.1 <> Ok k) ->
  t' !! k = t !! k.
Proof.
  revert t. induction uws as [|[u v] uws IH]; intros t H Hk.
  - by injection H as <-.
  - rewrite for_each_cons in H. apply bind_ok in H as (t1 & H1 & H).
    unfold setitem in H1. simpl in H1.
    apply bind_ok in H1 as (k' & Hk' & [= <-]).
    rewrite (IH _ H).
    + apply list_lookup_insert_ne. intros ->.
      apply (Hk (u, v)); [by left | done].
    + intros uw Huw. rewrite length_insert. apply Hk. by right.
Qed.

Lemma rsum_insert (xs : list R) k v x :
  xs !! k = Some x -> rsum (<[k := v]> xs) = rsum xs - x + v.
Proof.
  revert k. induction xs as [|y xs IH]; intros [|k] Hk; simpl in Hk;
    try done.
  - injection Hk as ->. change (<[0%nat := v]> (x :: xs)) with (v :: xs).
    rewrite !rsum_cons. lra.
  - change (<[S k := v]> (y :: xs)) with (y :: <[k := v]> xs).
    rewrite !rsum_cons, (IH k) by done. lra.
Qed.

(** Writes at distinct indexes into zeros: every value is where it was put
    and the sum grows by the values. *)
Lemma scatter_exact (uws : list (Z * R)) (xs : list R) t :
  for_each write uws (Fin <$> xs) = Ok t ->
  NoDup uws.*1 ->
  Forall (fun uw : Z * R => (0 <= uw.1 < Z.of_nat (length xs))%Z) uws ->
  (forall uw, uw ∈ uws -> xs !! Z.to_nat uw.1 = Some 0) ->
  exists ys, t = Fin <$> ys /\ rsum ys = rsum xs + rsum uws.*2 /\
    forall uw, uw ∈ uws -> ys !! Z.to_nat uw.1 = Some uw.2.
Proof.
  revert xs. induction uws as [|[u v] uws IH]; intros xs H Hnd Hr Hz.
  - injection H as <-. exists xs. split; [done|]. split.
    + change (rsum ([] : list (Z * R)).*2) with 0. lra.
    + intros uw Huw. by apply elem_of_nil in Huw.
  - rewrite for_each_cons in H. apply bind_ok in H as (t1 & H1 & H).
    apply Forall_cons in Hr as [Hu Hr]. simpl in Hu.
    rewrite fmap_cons in Hnd. apply NoDup_cons in Hnd as [Hnin Hnd].
    simpl in H1, Hnin.
    rewrite setitem_ok in H1 by (by rewrite length_fmap).
    injection H1 as <-. rewrite <- list_fmap_insert in H.
    pose proof H as H'.
    apply IH in H as (ys & -> & Hsum & Hent); [|done| |].
    + exists ys. split; [done|]. split.
      * rewrite Hsum, (rsum_insert xs _ v 0) by (apply (Hz (u, v)); by left).
        rewrite fmap_cons, rsum_cons. simpl. lra.
      * intros uw Huw. apply elem_of_cons in Huw as [->|Huw]; [|by apply Hent].
        simpl. apply (scatter_unwritten _ _ _ (Z.to_nat u)) in H'.
        -- rewrite !list_lookup_fmap in H'.
           rewrite list_lookup_insert_eq in H' by lia.
           destruct (ys !! Z.to_nat u) as [y|]; simpl in H'; [|done].
           by injection H' as ->.
        -- intros [u' v'] Huw. simpl.
           rewrite Forall_forall in Hr. specialize (Hr _ Huw). simpl in Hr.
           rewrite length_fmap, length_insert, position_in_range by done.
           intros [= Heq]. apply Hnin.
           assert (u' = u) as <- by lia.
           apply list_elem_of_fmap. by exists (u', v').
    + eapply Forall_impl; [exact Hr|]. intros uw Huw.
      by rewrite length_insert.
    + intros [u' v'] Huw. simpl.
      rewrite Forall_forall in Hr. pose proof (Hr _ Huw) as Hr'. simpl in Hr'.
      rewrite list_lookup_insert_ne.
      * by apply (Hz (u', v')); right.
      * intros Heq. apply Hnin. assert (u' = u) as <- by lia.
        apply list_elem_of_fmap. by exists (u', v').
Qed.

Lemma fmap_fin_inj (xs ys : list R) : Fin <$> xs = Fin <$> ys -> xs = ys.
Proof.
  revert ys. induction xs as [|x xs IH]; intros [|y ys] H; try done.
  rewrite !fmap_cons in H. injection H as -> H. f_equal. by apply IH.
Qed.

(** The vector the scatter leaves, and the round vector made from it. *)
Lemma round_vector_shape e (w : list fval) ss nw :
  round_vector e w ss = Ok nw -> ss <> [] ->
  exists ys,
    scatter (zeros_like w) (uid_of <$> ss) (step_weights e ss)
    = Ok (Fin <$> ys) /\
    0 < rsum ys /\
    nw = Fin <$> ((fun y => y / rsum ys) <$> ys).
Proof.
  unfold round_vector. intros H Hne.
  apply bind_ok in H as (t & Ht & [= <-]).
  pose proof Ht as Ht'. unfold scatter in Ht'. rewrite zeros_like_fin in Ht'.
  apply scatter_loop in Ht' as (ys & -> & Hlen & Hys & Hex).
  2:{ apply step_weights_pos. }
  2:{ apply Forall_fmap, Forall_forall. intros x _. simpl. lra. }
  assert (Hs : 0 < rsum ys).
  { apply rsum_pos; [done|]. apply Hex. left.
    destruct ss as [|s ss]; [done|].
    pose proof (step_weights_length e (s :: ss)) as Hl.
    destruct (step_weights e (s :: ss)); simpl in *; done. }
  exists ys. split; [done|]. split; [done|].
  rewrite tsum_fin, div_scalar_fin by lra. done.
Qed.

(** The entry the weight update leaves where the old weight and the round's
    score are finite. *)
Lemma update_weights_lookup e (w nw w' : list fval) ss k x y :
  round_vector e w ss = Ok nw ->
  update_weights e w ss = Ok w' ->
  w !! k = Some (Fin x) -> nw !! k = Some (Fin y) ->
  w' !! k = Some (Fin (alpha e * x + (1 - alpha e) * y)).
Proof.
  intros Hnw Hw Hx Hy. unfold update_weights in Hw. rewrite Hnw in Hw.
  injection Hw as <-. unfold nan_to_num, blend, tadd, scale.
  rewrite list_lookup_fmap, lookup_zip_with, !list_lookup_fmap, Hx, Hy.
  done.
Qed.

Lemma candidates_uids e st :
  (candidates e st).*1
  = filter (fun uid => is_Some (metadata e uid)) (set_iter e (uids_to_eval st)).
Proof.
  unfold candidates. induction (set_iter e (uids_to_eval st)) as [|u l IH];
    [done|].
  csimpl. destruct (metadata e u) as [t|] eqn:Hm; csimpl.
  - rewrite filter_cons_True by (rewrite Hm; eauto). by rewrite IH.
  - rewrite filter_cons_False by (rewrite Hm; by intros [? ?]). done.
Qed.

(** The uids of a round are distinct. *)
Lemma candidates_NoDup e st : iter_ok e -> NoDup (candidates e st).*1.
Proof.
  intros Hi. rewrite candidates_uids. apply NoDup_filter.
  rewrite (Hi (uids_to_eval st)). apply NoDup_elements.
Qed.

(** X7.  A uid the round did not score keeps [alpha] times its weight. *)
Theorem unscored_weight_decays e st st' k x :
  run_step e st = Completed st' ->
  candidates e st <> [] ->
  weights st !! k = Some (Fin x) ->
  (forall c, c ∈ candidates e st ->
     position (length (weights st)) c.1 <> Ok k) ->
  weights st' !! k = Some (Fin (alpha e * x)).
Proof.
  intros H Hc Hx Hk. apply run_step_completed in H as (ss & w & Hss & Hw & ->).
  simpl. assert (ss <> []) as Hne.
  { apply score_round_length in Hss. destruct ss, (candidates e st); done. }
  destruct (round_vector e (weights st) ss) as [nw|] eqn:Hnw.
  2:{ unfold update_weights in Hw. by rewrite Hnw in Hw. }
  destruct (round_vector_shape e _ ss nw Hnw Hne) as (ys & Hsc & Hs & ->).
  unfold scatter in Hsc.
  apply (scatter_unwritten _ _ _ k) in Hsc.
  2:{ intros [u v] Huw. simpl. unfold zeros_like. rewrite length_fmap.
      assert (u ∈ (candidates e st).*1) as Hin.
      { rewrite <- (score_round_uids e _ ss Hss).
        apply list_elem_of_lookup in Huw as [i Hi].
        apply lookup_zip_with_Some in Hi as (u' & v' & [= <- <-] & Hu' & _).
        by eapply list_elem_of_lookup_2. }
      apply list_elem_of_fmap in Hin as (c & -> & Hin). by apply Hk. }
  unfold zeros_like in Hsc. rewrite !list_lookup_fmap, Hx in Hsc.
  destruct (ys !! k) as [y|] eqn:Hy; simpl in Hsc; [|done].
  injection Hsc as ->.
  rewrite (update_weights_lookup e _ _ w ss k x (0 / rsum ys) Hnw Hw Hx).
  - do 2 f_equal. unfold Rdiv. ring.
  - by rewrite !list_lookup_fmap, Hy.
Qed.

(** X8.  A uid the round scored gets [alpha] times its weight plus [1 - alpha]
    times its softmax score: with distinct uids that index the weight vector
    from the front, the renormalisation changes nothing. *)
Theorem scored_weight e st st' ss i s v x :
  iter_ok e ->
  run_step e st = Completed st' ->
  score_round e (candidates e st) = Ok ss ->
  Forall (fun c : Z * Z => (0 <= c.1 < Z.of_nat (length (weights st)))%Z)
    (candidates e st) ->
  ss !! i = Some s ->
  step_weights e ss !! i = Some v ->
  weights st !! Z.to_nat (uid_of s) = Some (Fin x) ->
  weights st' !! Z.to_nat (uid_of s)
  = Some (Fin (alpha e * x + (1 - alpha e) * v)).
Proof.
  intros Hi H Hss Hr Hs Hv Hx.
  apply run_step_completed in H as (ss' & w & Hss' & Hw & ->).
  rewrite Hss in Hss'. injection Hss' as <-. simpl.
  assert (ss <> []) as Hne by (intros ->; done).
  destruct (round_vector e (weights st) ss) as [nw|] eqn:Hnw.
  2:{ unfold update_weights in Hw. by rewrite Hnw in Hw. }
  destruct (round_vector_shape e _ ss nw Hnw Hne) as (ys & Hsc & Hpos & ->).
  unfold scatter in Hsc. rewrite zeros_like_fin in Hsc.
  pose proof (score_round_uids e _ ss Hss) as Hu.
  pose proof (step_weights_length e ss) as Hl.
  assert ((zip (uid_of <$> ss) (step_weights e ss)).*1 = uid_of <$> ss)
    as Hfst by (apply fst_zip; rewrite length_fmap; lia).
  assert ((zip (uid_of <$> ss) (step_weights e ss)).*2 = step_weights e ss)
    as Hsnd by (apply snd_zip; rewrite length_fmap; lia).
  apply scatter_exact in Hsc as (ys' & Heq & Hsum & Hent).
  - apply fmap_fin_inj in Heq as <-.
    rewrite rsum_zeros, Hsnd in Hsum.
    unfold step_weights in Hsum. rewrite softmax_sum in Hsum.
    2:{ destruct ss; [done|]. by rewrite fmap_cons. }
    assert (ys !! Z.to_nat (uid_of s) = Some v) as Hy.
    { apply (Hent (uid_of s, v)). apply list_elem_of_lookup. exists i.
      apply lookup_zip_with_Some. exists (uid_of s), v.
      by rewrite list_lookup_fmap, Hs. }
    rewrite (update_weights_lookup e _ _ w ss _ x (v / rsum ys) Hnw Hw Hx).
    + do 2 f_equal. rewrite Hsum. lra.
    + by rewrite !list_lookup_fmap, Hy.
  - rewrite Hfst, Hu. by apply candidates_NoDup.
  - apply Forall_forall. intros [u v'] Huw. simpl. rewrite length_fmap.
    assert (u ∈ (candidates e st).*1) as Hin.
    { rewrite <- Hu, <- Hfst. apply list_elem_of_fmap. by exists (u, v'). }
    apply list_elem_of_fmap in Hin as (c & -> & Hin).
    rewrite Forall_forall in Hr. by apply Hr.
  - intros [u v'] Huw. simpl. rewrite list_lookup_fmap.
    assert (u ∈ (candidates e st).*1) as Hin.
    { rewrite <- Hu, <- Hfst. apply list_elem_of_fmap. by exists (u, v'). }
    apply list_elem_of_fmap in Hin as (c & -> & Hin).
    rewrite Forall_forall in Hr. specialize (Hr c Hin).
    destruct (lookup_lt_is_Some_2 (weights st) (Z.to_nat c.1)) as [z ->];
      [lia | done].
Qed.

(** X9.  With a positive temperature the softmax does not reverse the order
    of the win rates: a win rate that is not lower gets a score that is not
    lower, and equal win rates get equal scores.  (The scores of the model
    are exact reals, where a higher win rate gets a higher score; float32
    can round two such scores to one value, so the order is stated without
    strictness.) *)
Theorem step_weights_order e ss i j a b va vb :
  0 < temperature e ->
  ss !! i = Some a -> ss !! j = Some b ->
  step_weights e ss !! i = Some va -> step_weights e ss !! j = Some vb ->
  ((win_rate_of a <= win_rate_of b)%Q -> va <= vb) /\
  ((win_rate_of a == win_rate_of b)%Q -> va = vb).
Proof.
  intros HT Ha Hb Hva Hvb. unfold step_weights, softmax in Hva, Hvb.
  rewrite !list_lookup_fmap, Ha in Hva. rewrite !list_lookup_fmap, Hb in Hvb.
  simpl in Hva, Hvb. injection Hva as <-. injection Hvb as <-.
  set (sum := rsum (exp <$> _)).
  assert (0 < sum) as Hsum.
  { apply rsum_exp_pos. destruct ss; [done|]. by rewrite fmap_cons. }
  split.
  - intros Hle. apply Qle_Rle in Hle.
    apply Rmult_le_compat_r; [left; by apply Rinv_0_lt_compat|].
    assert (Q2R (win_rate_of a) / temperature e
            <= Q2R (win_rate_of b) / temperature e) as [Hlt|Heq].
    { apply Rmult_le_compat_r; [left; by apply Rinv_0_lt_compat | done]. }
    + left. by apply exp_increasing.
    + right. by rewrite Heq.
  - intros Heq. apply Qeq_eqR in Heq. by rewrite Heq.
Qed.

(** The round vector where the uids are distinct and index the weight vector
    from the front: it is there, and every scored uid has its softmax score
    in it. *)
Lemma round_vector_scored e (w : list fval) ss :
  ss <> [] ->
  NoDup (uid_of <$> ss) ->
  Forall (fun s => (0 <= uid_of s < Z.of_nat (length w))%Z) ss ->
  exists nw, round_vector e w ss = Ok nw /\
    forall i s v, ss !! i = Some s -> step_weights e ss !! i = Some v ->
      nw !! Z.to_nat (uid_of s) = Some (Fin v).
Proof.
  intros Hne Hnd Hr.
  destruct (update_weights_returns e w ss Hr) as [w' Hw'].
  unfold update_weights in Hw'.
  destruct (round_vector e w ss) as [nw|] eqn:Hnw; [|done].
  exists nw. split; [done|]. intros i s v Hs Hv.
  destruct (round_vector_shape e _ ss nw Hnw Hne) as (ys & Hsc & Hpos & ->).
  unfold scatter in Hsc. rewrite zeros_like_fin in Hsc.
  pose proof (step_weights_length e ss) as Hl.
  assert ((zip (uid_of <$> ss) (step_weights e ss)).*1 = uid_of <$> ss)
    as Hfst by (apply fst_zip; rewrite length_fmap; lia).
  assert ((zip (uid_of <$> ss) (step_weights e ss)).*2 = step_weights e ss)
    as Hsnd by (apply snd_zip; rewrite length_fmap; lia).
  assert (forall u v', (u, v') ∈ zip (uid_of <$> ss) (step_weights e ss) ->
            (0 <= u < Z.of_nat (length w))%Z) as Hin.
  { intros u v' Huw.
    assert (u ∈ uid_of <$> ss) as Hu.
    { rewrite <- Hfst. apply list_elem_of_fmap. by exists (u, v'). }
    apply list_elem_of_fmap in Hu as (s' & -> & Hs').
    rewrite Forall_forall in Hr. by apply Hr. }
  apply scatter_exact in Hsc as (ys' & Heq & Hsum & Hent).
  - apply fmap_fin_inj in Heq as <-.
    rewrite rsum_zeros, Hsnd in Hsum.
    unfold step_weights in Hsum. rewrite softmax_sum in Hsum.
    2:{ destruct ss; [done|]. by rewrite fmap_cons. }
    assert (ys !! Z.to_nat (uid_of s) = Some v) as Hy.
    { apply (Hent (uid_of s, v)). apply list_elem_of_lookup. exists i.
      apply lookup_zip_with_Some. exists (uid_of s), v.
      by rewrite list_lookup_fmap, Hs. }
    rewrite !list_lookup_fmap, Hy. simpl. do 2 f_equal. rewrite Hsum. lra.
  - by rewrite Hfst.
  - apply Forall_forall. intros [u v'] Huw. simpl. rewrite length_fmap.
    by eapply Hin.
  - intros [u v'] Huw. simpl. rewrite list_lookup_fmap.
    specialize (Hin u v' Huw).
    destruct (lookup_lt_is_Some_2 w (Z.to_nat u)) as [z ->]; [lia | done].
Qed.

(** The softmax score at a position. *)
Lemma step_weights_lookup e ss i s :
  ss !! i = Some s ->
  step_weights e ss !! i
  = Some (exp (Q2R (win_rate_of s) / temperature e)
          / rsum (exp <$> ((fun s' => Q2R (win_rate_of s') / temperature e)
                           <$> ss))).
Proof.
  intros Hs. unfold step_weights, softmax.
  by rewrite !list_lookup_fmap, Hs.
Qed.

(** Where every win rate is 0 the exponentials sum to the number of
    candidates. *)
Lemma rsum_exp_no_win e ss :
  Forall (fun s => (win_rate_of s == 0)%Q) ss ->
  rsum (exp <$> ((fun s => Q2R (win_rate_of s) / temperature e) <$> ss))
  = INR (length ss).
Proof.
  induction 1 as [|s ss Hs _ IH].
  - done.
  - rewrite !fmap_cons, rsum_cons, IH. apply Qeq_eqR in Hs. rewrite Hs.
    change (length (s :: ss)) with (S (length ss)). rewrite S_INR.
    replace (Q2R 0 / temperature e) with 0 by (unfold Q2R, Rdiv; simpl; ring).
    rewrite exp_0. lra.
Qed.

End WeightOfOneUid.

(** ** A candidate without a model, in the round *)

Section MissingModelRound.
Import Tensor Ranking Round.
Context {model batch loss : Type}.
Implicit Types (e : env model batch loss) (st : validator) (ss : list score).
Local Open Scope R_scope.

(** C4, as the code has it.  A candidate whose model is not there gets the
    loss [math.inf] for every batch.  If the comparator never lets
    [math.inf] win, it ends the round with no win and a win rate of 0.  Its
    entry of the round's score vector is not 0 but its softmax score,
    [exp(0) / sum_j exp(winRate_j / temperature)] over the candidates [j] of
    the round; that is [1 / k] when none of the [k] candidates has won a
    match.  The uids are those of a set and index the weight vector from
    the front; the temperature is not 0. *)
Theorem missing_model_score e st ss i s :
  iter_ok e ->
  temperature e <> 0 ->
  (forall l t t', iswin e (inf e) l t t' = false) ->
  Forall (fun c : Z * Z => (0 <= c.1 < Z.of_nat (length (weights st)))%Z)
    (candidates e st) ->
  score_round e (candidates e st) = Ok ss ->
  ss !! i = Some s ->
  load_model e (uid_of s) = None ->
  losses_of e (uid_of s) = replicate (length (batches e)) (inf e) /\
  wins_of s = 0%nat /\
  (win_rate_of s == 0)%Q /\
  exists nw, round_vector e (weights st) ss = Ok nw /\
    nw !! Z.to_nat (uid_of s)
    = Some (Fin (exp 0
                 / rsum (exp <$> ((fun s' => Q2R (win_rate_of s') / temperature e)
                                  <$> ss)))) /\
    (Forall (fun s' => (win_rate_of s' == 0)%Q) ss ->
     nw !! Z.to_nat (uid_of s) = Some (Fin (1 / INR (length ss)))).
Proof.
  intros Hit _ Hinf Hr Hss Hi Hm.
  split; [by apply losses_of_missing|].
  destruct (score_round_lookup e _ ss i s Hss Hi) as (c & Hc & Ht).
  assert (uid_of s = c.1) as Hu.
  { apply tally_ok in Ht as [Hu _]; [done|].
    rewrite length_zip_with, !length_fmap. apply lookup_lt_Some in Hc. lia. }
  assert (wins_of s = 0%nat) as Hw.
  { apply tally_no_win in Ht; [done|]. simpl. intros b l Hb l' t t'.
    rewrite <- Hu, losses_of_missing in Hb by done.
    apply lookup_replicate in Hb as [-> _]. apply Hinf. }
  split; [done|].
  assert (win_rate_of s == 0)%Q as Hz.
  { destruct (score_round_score e _ ss i s Hss Hi) as (_ & _ & ->).
    rewrite Hw. apply rate_no_win. }
  split; [done|].
  pose proof (score_round_uids e _ ss Hss) as Huids.
  destruct (round_vector_scored e (weights st) ss) as (nw & Hnw & Hent).
  - intros ->. done.
  - rewrite Huids. by apply candidates_NoDup.
  - apply Forall_forall. intros s' Hs'.
    assert (uid_of s' ∈ (candidates e st).*1) as Hin.
    { rewrite <- Huids. by apply list_elem_of_fmap_2. }
    apply list_elem_of_fmap in Hin as (c' & -> & Hin).
    rewrite Forall_forall in Hr. by apply Hr.
  - exists nw. split; [done|].
    assert (nw !! Z.to_nat (uid_of s)
            = Some (Fin (exp 0
                 / rsum (exp <$> ((fun s' => Q2R (win_rate_of s') / temperature e)
                                  <$> ss))))) as He.
    { rewrite (Hent i s _ Hi (step_weights_lookup e ss i s Hi)).
      apply Qeq_eqR in Hz. rewrite Hz.
      replace (Q2R 0 / temperature e) with 0
        by (unfold Q2R, Rdiv; simpl; ring).
      done. }
    split; [done|]. intros Hall.
    rewrite He, (rsum_exp_no_win e ss Hall), exp_0. done.
Qed.

End MissingModelRound.

(** The sample pair: uid 1 has no model and loses its two matches against
    uid 0, which wins both of its own.  The score of uid 1 in the round
    vector is [exp(0) / (exp(1) + exp(0))].  The sample tie: neither uid 8
    nor uid 1 has a model, no match is won, and uid 8 has the score 1/2. *)
Lemma missing_model_score_witness :
  (Round.losses_of SampleRounds.pair 1
   = [Sample.Infinite; Sample.Infinite] /\
   Round.wins_of SampleRounds.absent = 0 /\
   (Round.win_rate_of SampleRounds.absent == 0)%Q /\
   exists nw,
     Round.round_vector SampleRounds.pair
       (Round.weights SampleRounds.duo) SampleRounds.pair_scores = Ok nw /\
     nw !! 1 = Some (Tensor.Fin (exp 0 / (exp 1 + exp 0))%R)) /\
  (exists nw,
     Round.round_vector Sample.tie
       (Round.weights Sample.two_uids) Sample.tie_scores = Ok nw /\
     nw !! 8 = Some (Tensor.Fin (1 / 2)%R)).
Proof.
  split.
  - destruct (missing_model_score SampleRounds.pair SampleRounds.duo
                SampleRounds.pair_scores 1 SampleRounds.absent)
      as (Hl & Hw & Hz & nw & Hnw & He & _).
    + intros s. apply merge_sort_Permutation.
    + simpl. lra.
    + intros l t t'. reflexivity.
    + repeat constructor; simpl; lia.
    + vm_compute. reflexivity.
    + reflexivity.
    + reflexivity.
    + split; [exact Hl|]. split; [exact Hw|]. split; [exact Hz|].
      exists nw. split; [exact Hnw|].
      change (Z.to_nat (Round.uid_of SampleRounds.absent)) with 1 in He.
      rewrite He. do 3 f_equal.
      unfold SampleRounds.pair_scores, Tensor.rsum. simpl.
      replace (Q2R (2 # 2) / 1)%R with 1%R by (unfold Q2R; simpl; lra).
      replace (Q2R (0 # 2) / 1)%R with 0%R by (unfold Q2R; simpl; lra).
      lra.
  - destruct (missing_model_score Sample.tie Sample.two_uids
                Sample.tie_scores 0
                {| Round.uid_of := 8; Round.wins_of := 0;
                   Round.total_matches_of := 1;
                   Round.win_rate_of := 0 # 1 |})
      as (_ & _ & _ & nw & Hnw & _ & He).
    + intros s. unfold Sample.tie. simpl. unfold Sample.descending.
      rewrite reverse_Permutation. apply merge_sort_Permutation.
    + simpl. lra.
    + intros l t t'. reflexivity.
    + repeat constructor; simpl; lia.
    + vm_compute. reflexivity.
    + reflexivity.
    + reflexivity.
    + exists nw. split; [exact Hnw|].
      specialize (He ltac:(repeat constructor)).
      change (nw !! 8 = Some (Tensor.Fin (1 / INR 2)%R)) in He.
      rewrite He. reflexivity.
Defined.

(** C4 as stated fails: the only candidate of the round has no model, and
    its entry of the round's score vector is 1, not 0. *)
Lemma missing_model_gets_the_whole_score :
  Round.load_model Sample.lone 0 = None /\
  Round.score_round Sample.lone (Round.candidates Sample.lone Sample.fresh)
  = Ok Sample.lone_scores /\
  Round.round_vector Sample.lone (Round.weights Sample.fresh)
    Sample.lone_scores = Ok [Tensor.Fin 1] /\
  Tensor.Fin 1 <> Tensor.Fin 0.
Proof.
  split; [done|]. split; [apply lone_scored|].
  split; [apply lone_round_vector|]. intros [= H]. lra.
Qed.

(** ** The update loop over any passes *)

Section SchedulerOverPasses.
Import BlockMonitor Scheduler.

Lemma iteration_pending s t :
  pending s ⊆ pending (iteration s t) /\
  forall uid, uid ∈ pending (iteration s t) ->
    uid ∈ pending s \/ (0 <= uid < 256)%Z.
Proof.
  unfold iteration.
  destruct (try_get_block 10 (block_worker t)) as [block|]; [|by split; auto].
  simpl. case_decide; [by split; auto|].
  assert (0 <= block mod 256 < 256)%Z as Hm by (apply Z.mod_pos_bound; lia).
  assert (forall uid, uid ∈ {[ (block mod 256)%Z ]} ∪ pending s ->
            uid ∈ pending s \/ (0 <= uid < 256)%Z) as Hadd.
  { intros uid Hu. apply elem_of_union in Hu as [Hu|Hu]; [|by left].
    apply elem_of_singleton in Hu as ->. by right. }
  destruct (sync_outcome t); simpl.
  - split; [apply union_subseteq_r | done].
  - split; [apply union_subseteq_r | done].
  - split; [done | by left].
Qed.

(** X16.  The update loop only adds to the pending set, and what it adds is a
    slot: a uid from 0 to 255. *)
Theorem pending_only_grows (ts : list tick) (s : sched) :
  pending s ⊆ pending (update_models ts s) /\
  forall uid, uid ∈ pending (update_models ts s) ->
    uid ∈ pending s \/ (0 <= uid < 256)%Z.
Proof.
  revert s. induction ts as [|t ts IH]; intros s; [by split; auto|].
  unfold update_models. simpl. fold (update_models ts (iteration s t)).
  destruct (IH (iteration s t)) as [H1 H2].
  destruct (iteration_pending s t) as [H3 H4]. split.
  - by etransitivity.
  - intros uid Hu. destruct (H2 uid Hu) as [Hu'|Hu']; [|by right].
    by apply H4.
Qed.

Lemma no_repeat_snoc l z :
  no_repeat l -> (forall x, last l = Some x -> x <> z) -> no_repeat (l ++ [z]).
Proof.
  induction l as [|x [|y l] IH]; intros Hn Hl.
  - done.
  - simpl. split; [by apply Hl | done].
  - destruct Hn as [Hxy Hn]. split; [done|]. apply IH; [done|].
    intros x' Hx'. apply Hl. done.
Qed.

Lemma no_repeat_lookup l i x y :
  no_repeat l -> l !! i = Some x -> l !! S i = Some y -> x <> y.
Proof.
  revert i. induction l as [|a [|b l] IH]; intros i Hn Hx Hy.
  - by rewrite lookup_nil in Hx.
  - by destruct i.
  - destruct Hn as [Hab Hn]. destruct i as [|i].
    + simpl in Hx, Hy. congruence.
    + by apply (IH i).
Qed.

Lemma iteration_no_repeat s t :
  no_repeat (sync_calls s) ->
  (forall x, last (sync_calls s) = Some x -> x = last_uid_update s) ->
  no_repeat (sync_calls (iteration s t)) /\
  (forall x, last (sync_calls (iteration s t)) = Some x ->
     x = last_uid_update (iteration s t)).
Proof.
  intros Hn Hl. unfold iteration.
  destruct (try_get_block 10 (block_worker t)) as [block|]; [|done].
  simpl. case_decide as Hne; [done|].
  assert (no_repeat (sync_calls s ++ [(block mod 256)%Z])) as Hn'.
  { apply no_repeat_snoc; [done|]. intros x Hx ->. by apply Hne, Hl. }
  destruct (sync_outcome t); simpl; (split; [done|]); intros x;
    rewrite last_snoc; congruence.
Qed.

(** X17.  From its start the update loop never syncs the same slot twice in a
    row. *)
Theorem no_slot_twice_in_a_row (ts : list tick) (p : gset Z) i x y :
  sync_calls (update_models ts (init p)) !! i = Some x ->
  sync_calls (update_models ts (init p)) !! S i = Some y ->
  x <> y.
Proof.
  apply no_repeat_lookup.
  assert (forall s,
    no_repeat (sync_calls s) ->
    (forall x, last (sync_calls s) = Some x -> x = last_uid_update s) ->
    no_repeat (sync_calls (update_models ts s))) as Hgen.
  { induction ts as [|t ts IH]; intros s Hn Hl; [done|].
    unfold update_models. simpl. fold (update_models ts (iteration s t)).
    destruct (iteration_no_repeat s t Hn Hl) as [Hn' Hl']. by apply IH. }
  apply Hgen; done.
Qed.

#[local] Instance fetched_dec t : Decision (fetched t).
Proof. unfold fetched. apply _. Defined.

(** X18.  The passes whose block fetch timed out or failed leave no trace: the
    loop ends in the state it reaches on the other passes alone. *)
Theorem failed_fetches_are_skipped (ts : list tick) (s : sched) :
  update_models ts s = update_models (filter fetched ts) s.
Proof.
  revert s. induction ts as [|t ts IH]; intros s; [done|].
  destruct (decide (fetched t)) as [Hf|Hf].
  - rewrite filter_cons_True by done. unfold update_models. simpl. apply IH.
  - rewrite filter_cons_False by done. unfold update_models. simpl.
    rewrite iteration_no_block; [apply IH|].
    unfold fetched in Hf. destruct (try_get_block 10 (block_worker t));
      [|done]. exfalso. apply Hf. eauto.
Qed.

End SchedulerOverPasses.

(** ** The pool over a round *)

Section PoolOverRound.
Import Tensor Ranking Round.
Context {model batch loss : Type}.
Implicit Types (e : env model batch loss) (st : validator) (ss : list score).

#[local] Instance Q_eq_dec : EqDecision Q.
Proof. solve_decision. Defined.

#[local] Instance score_eq_dec : EqDecision score.
Proof. solve_decision. Defined.

Lemma prefix_slice_subseteq {X} (l : list X) n : prefix_slice l n ⊆ l.
Proof. unfold prefix_slice. case_decide; apply subseteq_take. Qed.

Lemma top_uids_candidates e st ss uid :
  score_round e (candidates e st) = Ok ss ->
  uid ∈ top_uids e ss -> uid ∈ (candidates e st).*1.
Proof.
  intros Hss Hu. rewrite <- (score_round_uids e _ ss Hss).
  unfold top_uids in Hu. apply list_elem_of_fmap in Hu as (s & -> & Hs).
  apply list_elem_of_fmap_2. apply prefix_slice_subseteq in Hs.
  by rewrite sorted_reverse_perm in Hs.
Qed.

(** X10.  A round brings no uid into the active set from elsewhere: every member
    of the next active set was pending, or was active and has metadata. *)
Theorem next_active_set_origin e st st' uid :
  iter_ok e ->
  run_step e st = Completed st' ->
  uid ∈ uids_to_eval st' ->
  (uid ∈ uids_to_eval st /\ is_Some (metadata e uid)) \/
  uid ∈ pending_uids_to_eval st.
Proof.
  intros Hi H Hu. apply run_step_completed in H as (ss & w & Hss & _ & ->).
  simpl in Hu. apply elem_of_union in Hu as [Hu|Hu]; [left | by right].
  apply elem_of_list_to_set in Hu.
  apply (top_uids_candidates e st ss uid Hss) in Hu.
  apply list_elem_of_fmap in Hu as (c & -> & Hc). split.
  - by eapply candidates_in_set.
  - apply candidates_elem in Hc as [_ ->]. eauto.
Qed.

(** X11.  When the candidates are no more than [sample_min], the round keeps
    them all. *)
Theorem room_for_all e st st' c :
  (Z.of_nat (length (candidates e st)) <= sample_min e)%Z ->
  run_step e st = Completed st' ->
  c ∈ candidates e st ->
  c.1 ∈ uids_to_eval st'.
Proof.
  intros Hn H Hc. apply run_step_completed in H as (ss & w & Hss & _ & ->).
  simpl. apply elem_of_union_l, elem_of_list_to_set.
  unfold top_uids. rewrite prefix_slice_nonneg by lia.
  rewrite take_ge.
  - assert (c.1 ∈ uid_of <$> ss) as Hin.
    { rewrite (score_round_uids e _ ss Hss). by apply list_elem_of_fmap_2. }
    apply list_elem_of_fmap in Hin as (s & -> & Hs).
    apply list_elem_of_fmap_2. by rewrite sorted_reverse_perm.
  - rewrite (Permutation_length (sorted_reverse_perm win_rate_of ss)).
    apply score_round_length in Hss. lia.
Qed.

Lemma kept_upward e ss a b :
  (0 <= sample_min e)%Z ->
  a ∈ prefix_slice (sorted_reverse win_rate_of ss) (sample_min e) ->
  b ∈ ss ->
  (win_rate_of a < win_rate_of b)%Q ->
  b ∈ prefix_slice (sorted_reverse win_rate_of ss) (sample_min e).
Proof.
  intros Hn Ha Hb Hlt. rewrite prefix_slice_nonneg in * by done.
  rewrite <- (sorted_reverse_perm win_rate_of ss) in Hb.
  rewrite <- (take_drop (Z.to_nat (sample_min e))
                (sorted_reverse win_rate_of ss)) in Hb.
  apply elem_of_app in Hb as [Hb|Hb]; [done|]. exfalso.
  pose proof (sorted_take_drop win_rate_of _ _ a b
                (sorted_reverse_sorted win_rate_of ss) Ha Hb) as Hle.
  unfold not_below in Hle. by apply Qlt_not_le in Hlt.
Qed.

(** X12.  The selection is by win rate: when a score is kept, every score of the
    round with a higher win rate is kept too, and its uid is in the next
    active set. *)
Theorem kept_is_upward_closed e st st' ss a b :
  (0 <= sample_min e)%Z ->
  run_step e st = Completed st' ->
  score_round e (candidates e st) = Ok ss ->
  a ∈ prefix_slice (sorted_reverse win_rate_of ss) (sample_min e) ->
  b ∈ ss ->
  (win_rate_of a < win_rate_of b)%Q ->
  b ∈ prefix_slice (sorted_reverse win_rate_of ss) (sample_min e) /\
  uid_of b ∈ uids_to_eval st'.
Proof.
  intros Hn H Hss Ha Hb Hlt.
  pose proof (kept_upward e ss a b Hn Ha Hb Hlt) as Hk. split; [done|].
  apply run_step_completed in H as (ss' & w & Hss' & _ & ->).
  rewrite Hss in Hss'. injection Hss' as <-. simpl.
  apply elem_of_union_l, elem_of_list_to_set.
  unfold top_uids. by apply list_elem_of_fmap_2.
Qed.

(** X13.  With room for at least one, the candidate whose win rate is above all
    the others stays in the active set. *)
Theorem best_is_kept e st st' ss b :
  (1 <= sample_min e)%Z ->
  run_step e st = Completed st' ->
  score_round e (candidates e st) = Ok ss ->
  b ∈ ss ->
  (forall s, s ∈ ss -> s <> b -> (win_rate_of s < win_rate_of b)%Q) ->
  uid_of b ∈ uids_to_eval st'.
Proof.
  intros Hn H Hss Hb Hbest.
  apply run_step_completed in H as (ss' & w & Hss' & _ & ->).
  rewrite Hss in Hss'. injection Hss' as <-. simpl.
  apply elem_of_union_l, elem_of_list_to_set.
  unfold top_uids. apply list_elem_of_fmap_2.
  destruct (sorted_reverse win_rate_of ss) as [|x l] eqn:Hs.
  { rewrite <- (sorted_reverse_perm win_rate_of ss), Hs in Hb.
    by apply elem_of_nil in Hb. }
  assert (x ∈ prefix_slice (x :: l) (sample_min e)) as Hx.
  { rewrite prefix_slice_nonneg by lia.
    destruct (Z.to_nat (sample_min e)) as [|n] eqn:Hz; [lia|]. by left. }
  destruct (decide (x = b)) as [<-|Hne]; [done|].
  rewrite <- Hs in *. apply (kept_upward e ss x b); [lia|done|done|].
  apply Hbest; [|done]. rewrite <- (sorted_reverse_perm win_rate_of ss), Hs.
  by left.
Qed.

End PoolOverRound.

(** ** The state [__init__] leaves *)

Section InitialState.
Import Tensor Ranking Round MainLoop.
Context {model batch loss : Type}.
Implicit Types (e : env model batch loss).

(** X19.  The first active set holds uids of the metagraph that have metadata:
    all of them, or at most [sample_min + 1] of them when [config.test] is
    set. *)
Theorem initial_uids_have_metadata e (uids : list Z)
    (shuffle : list Z -> list Z) (test : bool) :
  (forall l, shuffle l ≡ₚ l) ->
  (forall uid, uid ∈ initial_uids e uids shuffle test ->
     uid ∈ uids /\ metadata e uid <> None) /\
  (test = false ->
   forall uid, uid ∈ uids -> metadata e uid <> None ->
     uid ∈ initial_uids e uids shuffle test) /\
  (test = true -> (-1 <= sample_min e)%Z ->
   (Z.of_nat (size (initial_uids e uids shuffle test)) <= sample_min e + 1)%Z).
Proof.
  intros Hsh. unfold initial_uids. split; [|split].
  - intros uid Hu. apply elem_of_list_to_set in Hu.
    assert (uid ∈ shuffle (filter (fun uid => metadata e uid <> None) uids))
      as Hin.
    { destruct test; [by apply prefix_slice_subseteq in Hu | done]. }
    rewrite Hsh in Hin. by apply list_elem_of_filter in Hin as [? ?].
  - intros -> uid Hu Hm. apply elem_of_list_to_set. rewrite Hsh.
    by apply list_elem_of_filter.
  - intros -> Hn.
    pose proof (size_list_to_set_le
      (prefix_slice (shuffle (filter (fun uid => metadata e uid <> None) uids))
         (sample_min e + 1))) as H1.
    pose proof (prefix_slice_length
      (shuffle (filter (fun uid => metadata e uid <> None) uids))
      (sample_min e + 1)) as H2.
    lia.
Qed.

End InitialState.

(** ** The properties on the sample rounds *)

Section SampleWitnesses.
Import BlockMonitor Scheduler Tensor Ranking Round Sample TimeBox MainLoop
  SampleRounds.
Local Open Scope R_scope.

Lemma lone_iter_ok : iter_ok lone.
Proof. intros s. apply ascending_ok. Qed.

Lemma trio_iter_ok : iter_ok trio.
Proof. intros s. apply ascending_ok. Qed.

Lemma stray_scored : score_round lone (candidates lone stray) = Ok stray_scores.
Proof. vm_compute. reflexivity. Qed.

Lemma two_slots_completes : exists st', run_step lone two_slots = Completed st'.
Proof.
  apply run_step_returns.
  - apply lone_iter_ok.
  - apply sample_losses_ok.
  - done.
  - intros uid Hin _.
    change (length (weights two_slots)) with 2%nat.
    change (uids_to_eval two_slots) with ({[ 0%Z ]} : gset Z) in Hin.
    apply elem_of_singleton in Hin as ->. lia.
Qed.

Lemma with_synced_nothing st :
  with_synced st lone_pass = st.
Proof.
  destruct st as [w u p]. unfold with_synced. simpl. f_equal.
  apply (right_id_L ∅ (∪)).
Qed.

(** No batch: the round of the lone candidate divides by zero. *)
Lemma run_step_without_batches_witness :
  run_step no_batches fresh = Aborted ZeroDivisionError fresh.
Proof.
  apply run_step_without_batches.
  - apply sample_losses_ok.
  - reflexivity.
  - by vm_compute.
Defined.

(** Uid 5 against a weight vector of length 1. *)
Lemma run_step_uid_out_of_range_witness :
  run_step lone stray = Aborted IndexError stray.
Proof.
  apply (run_step_uid_out_of_range lone stray stray_scores (5%Z, 0%Z)).
  - apply stray_scored.
  - change (candidates lone stray) with [(5%Z, 0%Z)]. by left.
  - unfold indexes. simpl. lia.
Defined.

(** The first round of the lone candidate completes. *)
Lemma run_step_completes_iff_witness :
  exists st', run_step lone fresh = Completed st'.
Proof.
  apply (proj2 (run_step_completes_iff lone fresh
                  (sample_losses_ok _ _ _ _ _))).
  split.
  - left. simpl. discriminate.
  - change (candidates lone fresh) with [(0%Z, 0%Z)].
    repeat constructor; simpl; lia.
Defined.

(** A round on an empty active set. *)
Lemma run_step_without_candidates_witness :
  run_step frozen settled =
  Completed {| weights := zeros_like (weights settled);
               uids_to_eval := pending_uids_to_eval settled;
               pending_uids_to_eval := ∅ |}.
Proof. apply run_step_without_candidates. reflexivity. Defined.

(** Two passes of the lone candidate from the zero vector. *)
Lemma weights_stay_subdistribution_witness :
  subdistribution (weights (run_rounds [lone_pass; lone_pass] fresh)).
Proof.
  apply (weights_stay_subdistribution [lone_pass; lone_pass] fresh).
  - repeat constructor; simpl; lra.
  - exists [0]. split; [done|]. split.
    + repeat constructor; lra.
    + unfold rsum. simpl. lra.
Defined.

(** One pass of the lone candidate from the zero vector. *)
Lemma weights_sum_after_rounds_witness :
  tsum (weights (run_rounds [lone_pass] fresh))
  = Fin ((1 / 2) ^ 1 * rsum [0] + (1 - (1 / 2) ^ 1)).
Proof.
  apply (proj1 (weights_sum_after_rounds (1 / 2) [lone_pass] fresh [0]
    ltac:(split; [reflexivity|]; split; [by vm_compute|];
          split; [exists after_first_round;
                    rewrite with_synced_nothing; apply lone_round | exact I])
    eq_refl)).
Defined.

(** The second weight, which the round of uid 0 does not touch. *)
Lemma unscored_weight_decays_witness :
  exists st', run_step lone two_slots = Completed st' /\
    weights st' !! 1%nat = Some (Fin (alpha lone * (1 / 2))).
Proof.
  destruct two_slots_completes as [st' H]. exists st'. split; [done|].
  apply (unscored_weight_decays lone two_slots st' 1 (1 / 2) H).
  - by vm_compute.
  - reflexivity.
  - change (candidates lone two_slots) with [(0%Z, 0%Z)].
    intros c Hc. apply list_elem_of_singleton in Hc as ->. by vm_compute.
Defined.

(** The weight of the lone candidate after the first round. *)
Lemma scored_weight_witness :
  exists v, weights after_first_round !! 0%nat
            = Some (Fin (alpha lone * 0 + (1 - alpha lone) * v)).
Proof.
  eexists.
  apply (scored_weight lone fresh after_first_round lone_scores 0
           {| uid_of := 0; wins_of := 0; total_matches_of := 0;
              win_rate_of := 0 |} _ 0 lone_iter_ok lone_round lone_scored).
  - change (candidates lone fresh) with [(0%Z, 0%Z)].
    repeat constructor; simpl; lia.
  - reflexivity.
  - reflexivity.
  - reflexivity.
Defined.

(** Uids 1 and 2 of the three candidates: win rates 0 and 1. *)
Lemma step_weights_order_witness :
  exists va vb, step_weights trio trio_scores !! 1%nat = Some va /\
    step_weights trio trio_scores !! 2%nat = Some vb /\ va <= vb.
Proof.
  eexists _, _. split; [reflexivity|]. split; [reflexivity|].
  apply (proj1 (step_weights_order trio trio_scores 1 2 _ _ _ _
                  ltac:(simpl; lra) eq_refl eq_refl eq_refl eq_refl)).
  vm_compute. discriminate.
Defined.

(** Slots 5, 5, 6: the syncs are 5 then 6. *)
Lemma no_slot_twice_in_a_row_witness : 5%Z <> 6%Z.
Proof.
  apply (no_slot_twice_in_a_row
           [at_block 5 Pulled; at_block 5 Pulled; at_block 6 Pulled] ∅ 0);
    reflexivity.
Defined.

(** Uid 3, synced before the first round of the lone candidate. *)
Lemma synced_uid_is_active_witness :
  3%Z ∈ uids_to_eval (one_round fresh synced_pass).
Proof.
  assert (exists st',
    run_step lone (with_synced fresh synced_pass) = Completed st') as [st' H].
  { apply run_step_returns.
    - apply lone_iter_ok.
    - apply sample_losses_ok.
    - done.
    - intros uid Hin _.
      change (length (weights (with_synced fresh synced_pass))) with 1%nat.
      change (uids_to_eval (with_synced fresh synced_pass))
        with ({[ 0%Z ]} : gset Z) in Hin.
      apply elem_of_singleton in Hin as ->. lia. }
  assert (3%Z ∈ synced synced_pass) as Hin.
  { change (3%Z ∈ ({[ 3%Z ]} : gset Z)). by apply elem_of_singleton. }
  exact (proj1 (synced_uid_is_active fresh synced_pass st' 3 H Hin)).
Defined.

(** The pass with uid 3 synced, on the state whose uid 5 is out of range. *)
Lemma failed_round_keeps_pending_witness :
  one_round stray synced_pass = with_synced stray synced_pass.
Proof.
  apply failed_round_keeps_pending.
  - simpl. discriminate.
  - intros st' H.
    change (run_step lone (with_synced stray synced_pass) = Completed st') in H.
    rewrite (uid_out_of_range_aborts lone (with_synced stray synced_pass)
               stray_scores (5%Z, 0%Z)) in H.
    + discriminate.
    + by vm_compute.
    + change (candidates lone (with_synced stray synced_pass))
        with [(5%Z, 0%Z)]. by left.
    + unfold indexes. simpl. lia.
Defined.

(** A deadline of 0: the round is cancelled before it starts. *)
Lemma try_run_step_timeout_witness : (0 <= 0)%Z /\ fresh = fresh.
Proof. exact (try_run_step_timeout lone 0 5 fresh fresh eq_refl). Defined.

(** Three uids, a shuffle that reverses the list, test mode. *)
Lemma initial_uids_have_metadata_witness :
  (Z.of_nat (size (initial_uids lone [0; 1; 2]%Z reverse true))
   <= sample_min lone + 1)%Z.
Proof.
  apply (proj2 (proj2 (initial_uids_have_metadata lone [0; 1; 2]%Z reverse true
                         (fun l => reverse_Permutation l))) eq_refl).
  simpl. lia.
Defined.

(** Uid 0 after the first round of the lone candidate. *)
Lemma next_active_set_origin_witness :
  (0%Z ∈ uids_to_eval fresh /\ is_Some (metadata lone 0)) \/
  0%Z ∈ pending_uids_to_eval fresh.
Proof.
  assert (0%Z ∈ uids_to_eval after_first_round) as Hin.
  { change (0%Z ∈ ({[ 0%Z ]} : gset Z)). by apply elem_of_singleton. }
  exact (next_active_set_origin lone fresh after_first_round 0
           lone_iter_ok lone_round Hin).
Defined.

(** One candidate, room for thirty. *)
Lemma room_for_all_witness : 0%Z ∈ uids_to_eval after_first_round.
Proof.
  apply (room_for_all lone fresh after_first_round (0%Z, 0%Z)).
  - change (candidates lone fresh) with [(0%Z, 0%Z)]. simpl. lia.
  - apply lone_round.
  - change (candidates lone fresh) with [(0%Z, 0%Z)]. by left.
Defined.

(** The three candidates, room for two: uid 0 (win rate 2/4) is kept, so
    uid 2 (win rate 4/4) is. *)
Lemma kept_is_upward_closed_witness :
  exists st', run_step trio three_uids = Completed st' /\
    2%Z ∈ uids_to_eval st'.
Proof.
  destruct trio_completes as [st' H]. exists st'. split; [done|].
  apply (proj2 (kept_is_upward_closed trio three_uids st' trio_scores
    {| uid_of := 0; wins_of := 2; total_matches_of := 4; win_rate_of := 2 # 4 |}
    {| uid_of := 2; wins_of := 4; total_matches_of := 4; win_rate_of := 4 # 4 |}
    ltac:(simpl; lia) H trio_scored
    ltac:(vm_compute; repeat constructor)
    ltac:(unfold trio_scores; repeat constructor)
    eq_refl)).
Defined.

(** The three candidates: uid 2 wins every match. *)
Lemma best_is_kept_witness :
  exists st', run_step trio three_uids = Completed st' /\
    2%Z ∈ uids_to_eval st'.
Proof.
  destruct trio_completes as [st' H]. exists st'. split; [done|].
  apply (best_is_kept trio three_uids st' trio_scores
    {| uid_of := 2; wins_of := 4; total_matches_of := 4; win_rate_of := 4 # 4 |}
    ltac:(simpl; lia) H trio_scored
    ltac:(unfold trio_scores; repeat constructor)).
  intros s Hs Hne. unfold trio_scores in Hs.
  rewrite !elem_of_cons in Hs.
  destruct Hs as [->|[->|[->|Hs]]]; [reflexivity | reflexivity | done |].
  by apply elem_of_nil in Hs.
Defined.

End SampleWitnesses.
